(** * gtfs-analyzer: the feed-to-segment pipeline of [main.py]

    A shallow embedding of [load_gtfs_from_directory], [extract_segments],
    [plot_routes_on_map] and [analyze_gtfs_feeds], and the properties of
    the specification that are settled on it.

    Conventions of the embedding.
    - A pandas DataFrame is the list of its rows, in row order; the rows
      of each table are records with the columns the program reads.
      Identifiers ([trip_id], [stop_id], [route_id]) are strings, the
      same in every table; [stop_sequence] is an integer; coordinates
      are rationals, as every finite float is one. A null cell (NaN) is
      [None]: a missing coordinate, an empty [route_id] of [trips], the
      [route_id] of an unmatched row.
    - On these typed tables the column selections and the dtype check of
      [pd.merge] cannot fail; what [read_csv] infers for a column, and
      tables that lack a column the program reads, are outside the
      embedding.
    - The dict returned by the loader has at most the four keys of
      [required_files]; it is a record of four optional tables.
    - The key columns [trip_id], [stop_id] and [stop_sequence] hold no
      nulls.
    - [Series.mean()] is the library's float64 mean; it is a parameter
      ([SeriesMean]) with the two facts the properties need.
    - [print], [map_obj.save] and exceptions are explicit: a computation
      yields the events it emitted and either a value or the exception
      that escaped it. *)

From Stdlib Require Import ZArith QArith Ascii.
From stdpp Require Import gmap strings list sorting fin_maps.

Close Scope Q_scope.

(** ** Stable sorting

    [DataFrame.sort_values] with several [by] columns sorts through a
    lexicographic indirect sort that keeps rows with equal keys in their
    input order. Any two stable sorts agree ([stable_sort_unique] below),
    so insertion sort stands for it. *)

Section stable_sort_def.
Context {A : Type} (R : relation A) `{!RelDecision R}.

Fixpoint insert_row (x : A) (l : list A) : list A :=
  match l with
  | [] => [x]
  | y :: l' => if decide (R x y) then x :: y :: l' else y :: insert_row x l'
  end.

Fixpoint stable_sort (l : list A) : list A :=
  match l with
  | [] => []
  | x :: l' => insert_row x (stable_sort l')
  end.

(** Rows that the order cannot tell apart. *)
Definition tied (a x : A) : Prop := R a x ∧ R x a.

#[global] Instance tied_dec a x : Decision (tied a x).
Proof. unfold tied. apply _. Defined.

End stable_sort_def.

(** ** Tables

    The columns that [main.py] reads from each GTFS table. *)

Record TripRow := { trip_id : string; route_id : option string }.

Record StopTimeRow :=
  { st_trip_id : string; st_stop_sequence : Z; st_stop_id : string }.

Record RouteRow := { r_route_id : string }.

Record StopRow :=
  { s_stop_id : string; stop_lat : option Q; stop_lon : option Q }.

(** [stops.txt] keeps its header: [plot_routes_on_map] tests it for the
    coordinate columns. *)
Record StopsFrame :=
  { stops_columns : list string; stops_rows : list StopRow }.

(** The dict [files] built by the loader, keyed by file name. *)
Record GtfsFiles := {
  trips_txt : option (list TripRow);
  stop_times_txt : option (list StopTimeRow);
  routes_txt : option (list RouteRow);
  stops_txt : option StopsFrame
}.

(** [len(files)] *)
Definition len_files (files : GtfsFiles) : nat :=
  (if trips_txt files is Some _ then 1 else 0)
  + (if stop_times_txt files is Some _ then 1 else 0)
  + (if routes_txt files is Some _ then 1 else 0)
  + (if stops_txt files is Some _ then 1 else 0).

Definition required_files : list string :=
  ["trips.txt"; "stop_times.txt"; "routes.txt"; "stops.txt"].

(** The joined table of [extract_segments], after the column selection. *)
Record TripStopRow := {
  ts_trip_id : string;
  ts_stop_sequence : Z;
  ts_stop_id : string;
  ts_route_id : option string
}.

(** The joined table of [plot_routes_on_map], after the column selection. *)
Record PlotRow := {
  p_trip_id : string;
  p_stop_sequence : Z;
  p_stop_id : string;
  p_stop_lat : option Q;
  p_stop_lon : option Q;
  p_route_id : option string
}.

(** [folium.Map]: its centre, its zoom and the polylines added to it. *)
Record Map := {
  location : Q * Q;
  zoom_start : Z;
  polylines : list (list (Q * Q))
}.

(** ** Effects *)

Inductive Exn :=
  | KeyError (key : string)
  | ValueError (msg : string).

Inductive Event :=
  | Print (line : string)
  | Save (filename : string) (map_obj : Map).

(** The events emitted, then the exception that escaped or the value. *)
Definition Run (A : Type) : Type := list Event * (Exn + A).

#[global] Instance Run_ret : MRet Run := λ A x, ([], inr x).

#[global] Instance Run_bind : MBind Run := λ A B k c,
  match c.2 with
  | inl e => (c.1, inl e)
  | inr x => (c.1 ++ (k x).1, (k x).2)
  end.

Definition raise {A} (e : Exn) : Run A := ([], inl e).

Definition print (line : string) : Run unit := ([Print line], inr tt).

(** [map_obj.save(filename)]; the write itself is taken to succeed. *)
Definition save (map_obj : Map) (filename : string) : Run unit :=
  ([Save filename map_obj], inr tt).

(** [str(e)] as an f-string renders it. *)
Definition str_exn (e : Exn) : string :=
  match e with
  | KeyError key => "'" +:+ key +:+ "'"
  | ValueError msg => msg
  end.

(** [d[key]] on the loaded dict. *)
Definition getitem {A} (entry : option A) (key : string) : Run A :=
  match entry with
  | Some df => mret df
  | None => raise (KeyError key)
  end.

(** [try: body  except KeyError as e: handler], followed by [rest]; the
    handler returns from the function. *)
Definition try_except_KeyError {A B}
    (body : Run A) (handler : Exn → Run B) (rest : A → Run B) : Run B :=
  match body.2 with
  | inl (KeyError key) =>
      let h := handler (KeyError key) in (body.1 ++ h.1, h.2)
  | inl e => (body.1, inl e)
  | inr x => let r := rest x in (body.1 ++ r.1, r.2)
  end.

(** ** The pandas operations the program uses *)

(** [pd.merge(left, right, on=key, how='left')]: every left row is kept,
    in order; it is paired with each right row of the same key, in the
    order of [right], or with nulls when there is none. *)
Definition matched {L R O} (right : list R)
    (on_left : L → string) (on_right : R → string)
    (row : L → option R → O) (l : L) : list O :=
  match filter (λ r, on_right r = on_left l) right with
  | [] => [row l None]
  | matches => row l ∘ Some <$> matches
  end.

Definition merge_left {L R O} (left : list L) (right : list R)
    (on_left : L → string) (on_right : R → string)
    (row : L → option R → O) : list O :=
  left ≫= matched right on_left on_right row.

(** The order of [sort_values(by=['trip_id', 'stop_sequence'])]. *)
Definition by_trip_id_stop_sequence {A}
    (tid : A → string) (seq : A → Z) : relation A :=
  λ r1 r2, (tid r1 ≠ tid r2 ∧ String.le (tid r1) (tid r2))
           ∨ (tid r1 = tid r2 ∧ (seq r1 ≤ seq r2)%Z).

#[global] Instance by_trip_id_stop_sequence_dec {A} (tid : A → string) seq :
  RelDecision (by_trip_id_stop_sequence tid seq).
Proof. intros r1 r2. unfold by_trip_id_stop_sequence. apply _. Defined.

Definition sort_values {A} (tid : A → string) (seq : A → Z)
    (df : list A) : list A :=
  stable_sort (by_trip_id_stop_sequence tid seq) df.

(** The keys of [df.groupby('trip_id')]: the distinct values of the
    column, ascending. *)
Definition trip_keys {A} (tid : A → string) (df : list A) : list string :=
  stable_sort String.le (remove_dups (tid <$> df)).

(** [df.groupby('trip_id')], iterated: the groups come in ascending key
    order, each with its rows in the order of [df]. *)
Definition groupby {A} (tid : A → string) (df : list A)
    : list (string * list A) :=
  (λ k, (k, filter (λ r, tid r = k) df)) <$> trip_keys tid df.

(** [Series.mean()] is the float64 mean of pandas. It is not part of the
    repository, and how it rounds depends on how the library sums, so
    it is a parameter of the embedding. Two facts about it are assumed:
    nulls are skipped and the mean of no value is NaN; and it is exact
    where float64 arithmetic is, on at most 2^20 whole numbers of
    magnitude at most 2^20 whose mean is a whole number or a half
    ([half] is twice the mean). *)
Class SeriesMean := {
  mean : list (option Q) → option Q;
  mean_nan : ∀ column, omap id column = [] → mean column = None;
  mean_exact : ∀ column (values : list Z) (half : Z),
    omap id column = inject_Z <$> values →
    values ≠ [] →
    Forall (λ z, (Z.abs z ≤ 2 ^ 20)%Z) values →
    (Z.of_nat (length values) ≤ 2 ^ 20)%Z →
    (2 * foldr Z.add 0 values = half * Z.of_nat (length values))%Z →
    ∃ m, mean column = Some m ∧ Qeq m (half # 2)
}.

(** The mean without rounding. It is what [Series.mean()] returns on the
    sample feeds below, and it evaluates the program on them. *)
Definition exact_mean (column : list (option Q)) : option Q :=
  match omap id column with
  | [] => None
  | values =>
      Some (Qdiv (foldr Qplus (0 : Q) values)
                 (inject_Z (Z.of_nat (length values))))
  end.

(** ** [load_gtfs_from_directory] *)

(** What the loader finds at [os.path.join(directory, file_name)]. *)
Inductive FileState (A : Type) :=
  | Absent
  | Unreadable (e : string)
  | Parsed (df : A).
Arguments Absent {A}.
Arguments Unreadable {A} e.
Arguments Parsed {A} df.

Record Directory := {
  trips_file : FileState (list TripRow);
  stop_times_file : FileState (list StopTimeRow);
  routes_file : FileState (list RouteRow);
  stops_file : FileState StopsFrame
}.

Definition FileSystem : Type := string → Directory.

(** One round of the loop over [required_files]; [None] leaves the key
    out of [files]. *)
Definition load_file {A} (directory file_name : string)
    (file : FileState A) : Run (option A) :=
  match file with
  | Parsed df => mret (Some df)
  | Unreadable e =>
      print ("Error loading " +:+ file_name +:+ " in " +:+ directory
             +:+ ": " +:+ e);;
      mret None
  | Absent =>
      print ("Warning: " +:+ file_name +:+ " not found in " +:+ directory);;
      mret None
  end.

Definition load_gtfs_from_directory (fs : FileSystem) (directory : string)
    : Run GtfsFiles :=
  let d := fs directory in
  trips ← load_file directory "trips.txt" (trips_file d);
  stop_times ← load_file directory "stop_times.txt" (stop_times_file d);
  routes ← load_file directory "routes.txt" (routes_file d);
  stops ← load_file directory "stops.txt" (stops_file d);
  let files := {| trips_txt := trips; stop_times_txt := stop_times;
                  routes_txt := routes; stops_txt := stops |} in
  (if decide (len_files files ≠ length required_files)
   then print ("Warning: Missing some GTFS files in " +:+ directory)
   else mret tt);;
  mret files.

(** ** [extract_segments] *)

(** Line 41: the left join of [stop_times] with [trips]. *)
Definition joined_trip_stops (stop_times : list StopTimeRow)
    (trips : list TripRow) : list TripStopRow :=
  merge_left stop_times trips st_trip_id trip_id
    (λ st t, {| ts_trip_id := st_trip_id st;
                ts_stop_sequence := st_stop_sequence st;
                ts_stop_id := st_stop_id st;
                ts_route_id := t ≫= route_id |}).

(** Line 42: the column selection and the sort. *)
Definition trip_stop_times (stop_times : list StopTimeRow)
    (trips : list TripRow) : list TripStopRow :=
  sort_values ts_trip_id ts_stop_sequence (joined_trip_stops stop_times trips).

(** [segments[stops] += 1] on a [Counter]. *)
Definition increment (segments : gmap (list string) nat)
    (stops : list string) : gmap (list string) nat :=
  <[stops := S (default 0 (segments !! stops))]> segments.

(** Lines 45-48: the loop over the groups. *)
Definition count_segments (groups : list (string * list TripStopRow))
    : gmap (list string) nat :=
  foldl (λ segments group, increment segments (ts_stop_id <$> group.2))
        ∅ groups.

Definition extract_segments (gtfs_files : GtfsFiles)
    : Run (gmap (list string) nat) :=
  try_except_KeyError
    (trips ← getitem (trips_txt gtfs_files) "trips.txt";
     stop_times ← getitem (stop_times_txt gtfs_files) "stop_times.txt";
     routes ← getitem (routes_txt gtfs_files) "routes.txt";
     mret (trips, stop_times, routes))
    (λ e,
       print ("Error: Missing required file " +:+ str_exn e
              +:+ " in GTFS data");;
       mret ∅)
    (λ '(trips, stop_times, routes),
       mret (count_segments
               (groupby ts_trip_id (trip_stop_times stop_times trips)))).

(** ** [plot_routes_on_map] *)

(** Lines 74-75: the left joins with [stops] and with [trips]. *)
Definition plot_joined (stop_times_df : list StopTimeRow)
    (stops_df : StopsFrame) (trips_df : list TripRow) : list PlotRow :=
  let with_stops :=
    merge_left stop_times_df (stops_rows stops_df) st_stop_id s_stop_id
      (λ st s, (st, s)) in
  merge_left with_stops trips_df (λ r, st_trip_id r.1) trip_id
    (λ r t, {| p_trip_id := st_trip_id r.1;
               p_stop_sequence := st_stop_sequence r.1;
               p_stop_id := st_stop_id r.1;
               p_stop_lat := r.2 ≫= stop_lat;
               p_stop_lon := r.2 ≫= stop_lon;
               p_route_id := t ≫= route_id |}).

(** Line 78: the column selection and the sort. *)
Definition plot_trip_stop_times (stop_times_df : list StopTimeRow)
    (stops_df : StopsFrame) (trips_df : list TripRow) : list PlotRow :=
  sort_values p_trip_id p_stop_sequence
    (plot_joined stop_times_df stops_df trips_df).

(** [folium.Map(location=[lat, lon], zoom_start=zoom)]; folium refuses a
    NaN location with a [ValueError]. *)
Definition folium_Map (lat lon : option Q) (zoom : Z) : Run Map :=
  match lat, lon with
  | Some la, Some lo =>
      mret {| location := (la, lo); zoom_start := zoom; polylines := [] |}
  | _, _ => raise (ValueError "Location values cannot contain NaNs.")
  end.

(** [folium.PolyLine(locations=coordinates, ...).add_to(map_obj)] *)
Definition add_polyline (coordinates : list (Q * Q)) (map_obj : Map) : Map :=
  {| location := location map_obj;
     zoom_start := zoom_start map_obj;
     polylines := polylines map_obj ++ [coordinates] |}.

(** [group[['stop_lat', 'stop_lon']].dropna().values.tolist()] *)
Definition coordinates_of (group : list PlotRow) : list (Q * Q) :=
  omap (λ r, lat ← p_stop_lat r; lon ← p_stop_lon r; Some (lat, lon)) group.

(** Lines 85-95: the loop over the trips, on the map being drawn. *)
Fixpoint plot_trips (groups : list (string * list PlotRow))
    (map_obj : Map) : Run Map :=
  match groups with
  | [] => mret map_obj
  | (trip, group) :: groups' =>
      match coordinates_of group with
      | [] =>
          print ("Skipping trip " +:+ trip
                 +:+ ": No valid coordinates found.");;
          plot_trips groups' map_obj
      | coordinates => plot_trips groups' (add_polyline coordinates map_obj)
      end
  end.

Definition plot_routes_on_map `{!SeriesMean} (gtfs_files : GtfsFiles)
    : Run (option Map) :=
  match stops_txt gtfs_files with
  | None => print "Error: 'stops.txt' not found in GTFS data";; mret None
  | Some stops_df =>
      if decide ("stop_lat" ∉ stops_columns stops_df
                 ∨ "stop_lon" ∉ stops_columns stops_df)
      then print "Error: 'stop_lat' or 'stop_lon' missing in stops.txt";;
           mret None
      else
        match trips_txt gtfs_files, stop_times_txt gtfs_files with
        | Some trips_df, Some stop_times_df =>
            let trip_stop_times :=
              plot_trip_stop_times stop_times_df stops_df trips_df in
            map_obj ← folium_Map (mean (stop_lat <$> stops_rows stops_df))
                                 (mean (stop_lon <$> stops_rows stops_df)) 12;
            map_obj ← plot_trips (groupby p_trip_id trip_stop_times) map_obj;
            mret (Some map_obj)
        | _, _ =>
            print "Error: Missing 'trips.txt' or 'stop_times.txt'. Cannot plot routes.";;
            mret None
        end
  end.

(** ** [analyze_gtfs_feeds] *)

Fixpoint contains_slash (p : string) : bool :=
  match p with
  | EmptyString => false
  | String c p' => Ascii.eqb c "/"%char || contains_slash p'
  end.

(** [os.path.basename]: what follows the last slash. *)
Fixpoint basename (p : string) : string :=
  match p with
  | EmptyString => EmptyString
  | String c p' =>
      if contains_slash p' then basename p'
      else if Ascii.eqb c "/"%char then p' else p
  end.

(** The body of the loop, for one directory; [continue] ends it. The
    dict is falsy when it is empty, a [folium.Map] is always truthy. *)
Definition process_feed `{!SeriesMean} (fs : FileSystem)
    (directory : string) : Run unit :=
  print ("Processing GTFS feed in directory " +:+ directory +:+ "...");;
  gtfs_data ← load_gtfs_from_directory fs directory;
  if decide (len_files gtfs_data = 0)
  then print ("Skipping " +:+ directory +:+ " due to missing files.")
  else
    map_obj ← plot_routes_on_map gtfs_data;
    match map_obj with
    | Some map_obj =>
        let map_filename :=
          "routes_map_" +:+ basename directory +:+ ".html" in
        save map_obj map_filename;;
        print ("Map saved as '" +:+ map_filename +:+ "'.")
    | None => print ("Failed to generate map for " +:+ directory +:+ ".")
    end.

Fixpoint analyze_gtfs_feeds `{!SeriesMean} (fs : FileSystem)
    (gtfs_directories : list string) : Run unit :=
  match gtfs_directories with
  | [] => mret tt
  | directory :: rest =>
      process_feed fs directory;; analyze_gtfs_feeds fs rest
  end.

(** ** Notions of the specification *)

(** Ascending [stop_sequence], the visiting order within a trip. *)
Definition by_stop_sequence {A} (seq : A → Z) : relation A :=
  λ r1 r2, (seq r1 ≤ seq r2)%Z.

#[global] Instance by_stop_sequence_dec {A} (seq : A → Z) :
  RelDecision (by_stop_sequence seq).
Proof. intros r1 r2. unfold by_stop_sequence. apply _. Defined.

(** The ordered stop_id tuple of trip [t]: the [stop_id]s of its joined
    rows by ascending [stop_sequence], ties in row order. *)
Definition ordered_stop_ids (rows : list TripStopRow) (t : string)
    : list string :=
  ts_stop_id
    <$> stable_sort (by_stop_sequence ts_stop_sequence)
          (filter (λ r, ts_trip_id r = t) rows).

(** [tuple(group['stop_id'])] for the group of trip [t] in the sorted
    table [df]: the segment the loop counts for that trip. *)
Definition trip_segment (df : list TripStopRow) (t : string) : list string :=
  ts_stop_id <$> filter (λ r, ts_trip_id r = t) df.

(** A joined row without its [route_id]. *)
Definition drop_route (r : TripStopRow) : TripStopRow :=
  {| ts_trip_id := ts_trip_id r;
     ts_stop_sequence := ts_stop_sequence r;
     ts_stop_id := ts_stop_id r;
     ts_route_id := None |}.

(** The table set with another [trips] table, or another [stop_times]. *)
Definition with_trips (gtfs_files : GtfsFiles) (trips : list TripRow)
    : GtfsFiles :=
  {| trips_txt := Some trips;
     stop_times_txt := stop_times_txt gtfs_files;
     routes_txt := routes_txt gtfs_files;
     stops_txt := stops_txt gtfs_files |}.

Definition with_stop_times (gtfs_files : GtfsFiles)
    (stop_times : list StopTimeRow) : GtfsFiles :=
  {| trips_txt := trips_txt gtfs_files;
     stop_times_txt := Some stop_times;
     routes_txt := routes_txt gtfs_files;
     stops_txt := stops_txt gtfs_files |}.

(** [sum(segments.values())] *)
Definition total_count (segments : gmap (list string) nat) : nat :=
  map_fold (λ _ n acc, n + acc) 0 segments.

(** The distinct values of a column. *)
Definition distinct (column : list string) : gset string :=
  list_to_set column.

Definition loaded {A} (file : FileState A) : bool :=
  match file with
  | Parsed _ => true
  | _ => false
  end.

(** The entry of [files] that the loader makes of a file. *)
Definition frame_of {A} (file : FileState A) : option A :=
  match file with
  | Parsed df => Some df
  | _ => None
  end.

Definition files_of (d : Directory) : GtfsFiles :=
  {| trips_txt := frame_of (trips_file d);
     stop_times_txt := frame_of (stop_times_file d);
     routes_txt := frame_of (routes_file d);
     stops_txt := frame_of (stops_file d) |}.

(** The events of a run that persist an artifact. *)
Definition is_save (e : Event) : bool :=
  match e with
  | Save _ _ => true
  | Print _ => false
  end.

(** Output that persists nothing. *)
Definition prints_only (out : list Event) : Prop :=
  Forall (λ e, is_save e = false) out.

(** ** Sample feeds *)

Definition trip_row (t r : string) : TripRow :=
  {| trip_id := t; route_id := Some r |}.

Definition stop_time_row (t : string) (q : Z) (s : string) : StopTimeRow :=
  {| st_trip_id := t; st_stop_sequence := q; st_stop_id := s |}.

Definition table_set (trips : list TripRow) (stop_times : list StopTimeRow)
    (routes : list RouteRow) : GtfsFiles :=
  {| trips_txt := Some trips; stop_times_txt := Some stop_times;
     routes_txt := Some routes; stops_txt := None |}.

Definition two_routes : list RouteRow :=
  [ {| r_route_id := "R1" |}; {| r_route_id := "R2" |} ].

(** Two trips of different routes over the same stops. *)
Definition shared_trips : list TripRow :=
  [trip_row "T1" "R1"; trip_row "T2" "R2"].

Definition shared_stop_times : list StopTimeRow :=
  [stop_time_row "T1" 1 "A"; stop_time_row "T2" 1 "A";
   stop_time_row "T1" 2 "B"; stop_time_row "T2" 2 "B"].

(** The same rows, the trips interleaved differently. *)
Definition shared_stop_times_permuted : list StopTimeRow :=
  [stop_time_row "T2" 1 "A"; stop_time_row "T2" 2 "B";
   stop_time_row "T1" 1 "A"; stop_time_row "T1" 2 "B"].

(** One trip whose rows carry [stop_sequence] 3, 1, 2 at stops A, B, C. *)
Definition unordered_stop_times : list StopTimeRow :=
  [stop_time_row "T1" 3 "A"; stop_time_row "T1" 1 "B";
   stop_time_row "T1" 2 "C"].

(** A trip of [trips] without any [stop_times] row. *)
Definition lone_trip_files : GtfsFiles :=
  table_set [trip_row "T1" "R1"] [] two_routes.

(** Stops S1 at (10, 20) and S2 at (10, 21). *)
Definition two_stops : StopsFrame :=
  {| stops_columns := ["stop_id"; "stop_lat"; "stop_lon"];
     stops_rows :=
       [ {| s_stop_id := "S1"; stop_lat := Some (10 # 1)%Q;
            stop_lon := Some (20 # 1)%Q |};
         {| s_stop_id := "S2"; stop_lat := Some (10 # 1)%Q;
            stop_lon := Some (21 # 1)%Q |} ] |}.

(** Three trips, two of which call at S1 only. *)
Definition frequent_trips : list TripRow :=
  [trip_row "T1" "R1"; trip_row "T2" "R1"; trip_row "T3" "R2"].

Definition frequent_stop_times : list StopTimeRow :=
  [stop_time_row "T1" 1 "S1"; stop_time_row "T2" 1 "S1";
   stop_time_row "T3" 1 "S1"; stop_time_row "T3" 2 "S2"].

Definition frequent_files : GtfsFiles :=
  {| trips_txt := Some frequent_trips;
     stop_times_txt := Some frequent_stop_times;
     routes_txt := Some two_routes;
     stops_txt := Some two_stops |}.

(** Three feed directories: [feeds/A] has no [stops.txt], [feeds/B] is
    complete, [feeds/C] has no [routes.txt]; nothing else exists. *)
Definition sample_fs : FileSystem := λ directory,
  if decide (directory = "feeds/A") then
    {| trips_file := Parsed frequent_trips;
       stop_times_file := Parsed frequent_stop_times;
       routes_file := Parsed two_routes;
       stops_file := Absent |}
  else if decide (directory = "feeds/B") then
    {| trips_file := Parsed frequent_trips;
       stop_times_file := Parsed frequent_stop_times;
       routes_file := Parsed two_routes;
       stops_file := Parsed two_stops |}
  else if decide (directory = "feeds/C") then
    {| trips_file := Parsed frequent_trips;
       stop_times_file := Parsed frequent_stop_times;
       routes_file := Absent;
       stops_file := Parsed two_stops |}
  else
    {| trips_file := Absent; stop_times_file := Absent;
       routes_file := Absent; stops_file := Absent |}.

(** The map drawn for [two_stops] and the three trips above. *)
Definition frequent_map : Map :=
  {| location := ((20 # 2)%Q, (41 # 2)%Q);
     zoom_start := 12;
     polylines :=
       [ [((10 # 1)%Q, (20 # 1)%Q)];
         [((10 # 1)%Q, (20 # 1)%Q)];
         [((10 # 1)%Q, (20 # 1)%Q); ((10 # 1)%Q, (21 # 1)%Q)] ] |}.

(** ** Further notions *)

(** The order of the [groupby] keys, on the rows. *)
Definition by_trip_id {A} (tid : A → string) : relation A :=
  λ r1 r2, String.le (tid r1) (tid r2).

#[global] Instance by_trip_id_dec {A} (tid : A → string) :
  RelDecision (by_trip_id tid).
Proof. intros r1 r2. unfold by_trip_id. apply _. Defined.

(** A [stop_times] row as a joined row, without a route. *)
Definition unrouted (st : StopTimeRow) : TripStopRow :=
  {| ts_trip_id := st_trip_id st;
     ts_stop_sequence := st_stop_sequence st;
     ts_stop_id := st_stop_id st;
     ts_route_id := None |}.

(** The [stop_id]s of the [stop_times] rows of trip [t] by ascending
    [stop_sequence], ties in row order. *)
Definition stop_times_segment (stop_times : list StopTimeRow) (t : string)
    : list string :=
  st_stop_id
    <$> stable_sort (by_stop_sequence st_stop_sequence)
          (filter (λ r, st_trip_id r = t) stop_times).

(** The guards of [plot_routes_on_map] all pass. *)
Definition renderable (gtfs_files : GtfsFiles) : Prop :=
  ∃ stops_df,
    stops_txt gtfs_files = Some stops_df
    ∧ "stop_lat" ∈ stops_columns stops_df
    ∧ "stop_lon" ∈ stops_columns stops_df
    ∧ is_Some (trips_txt gtfs_files)
    ∧ is_Some (stop_times_txt gtfs_files).

(** [map_center], when neither mean is NaN. *)
Definition map_center `{!SeriesMean} (stops_df : StopsFrame)
    : option (Q * Q) :=
  lat ← mean (stop_lat <$> stops_rows stops_df);
  lon ← mean (stop_lon <$> stops_rows stops_df);
  Some (lat, lon).

(** [map_filename] of the loop body. *)
Definition map_filename (directory : string) : string :=
  "routes_map_" +:+ basename directory +:+ ".html".

(** The diagnostic of a trip that is not drawn. *)
Definition skip_line (trip : string) : Event :=
  Print ("Skipping trip " +:+ trip +:+ ": No valid coordinates found.").

(** The feed of [frequent_files] with one more trip, which calls at a stop
    that [stops] does not list. *)
Definition stray_files : GtfsFiles :=
  {| trips_txt := Some frequent_trips;
     stop_times_txt :=
       Some (frequent_stop_times ++ [stop_time_row "T9" 1 "S9"]);
     routes_txt := Some two_routes;
     stops_txt := Some two_stops |}.

(** A file system whose directory [feeds/E] holds a [stops.txt] with the
    coordinate columns and one stop without coordinates; every other
    directory is as in [sample_fs]. *)
Definition hollow_fs : FileSystem := λ directory,
  if decide (directory = "feeds/E") then
    {| trips_file := Parsed frequent_trips;
       stop_times_file := Parsed frequent_stop_times;
       routes_file := Parsed two_routes;
       stops_file :=
         Parsed {| stops_columns := ["stop_id"; "stop_lat"; "stop_lon"];
                   stops_rows :=
                     [ {| s_stop_id := "S1"; stop_lat := None;
                          stop_lon := None |} ] |} |}
  else sample_fs directory.

(** The ordered stop_id tuple of a trip, in the words of the
    specification: [tuple] lists the [stop_id]s of the [stop_times] rows
    of trip [t], arranged by ascending [stop_sequence], rows of equal
    [stop_sequence] in the order of the table. *)
Definition ordered_tuple_of (stop_times : list StopTimeRow) (t : string)
    (tuple : list string) : Prop :=
  ∃ rows,
    rows ≡ₚ filter (λ r, st_trip_id r = t) stop_times
    ∧ Sorted (λ r1 r2, (st_stop_sequence r1 ≤ st_stop_sequence r2)%Z) rows
    ∧ (∀ q, filter (λ r, st_stop_sequence r = q) rows
            = filter (λ r, st_stop_sequence r = q)
                (filter (λ r, st_trip_id r = t) stop_times))
    ∧ tuple = st_stop_id <$> rows.

(** A [trips] table that lists trip T1 twice. *)
Definition repeated_trips : list TripRow :=
  [trip_row "T1" "R1"; trip_row "T1" "R2"; trip_row "T2" "R2"].


(** * Properties *)

(** ** The mean of the samples *)

Lemma foldr_Qplus_inject_Z (values : list Z) :
  Qeq (foldr Qplus (0 : Q) (inject_Z <$> values))
      (inject_Z (foldr Z.add 0%Z values)).
Proof.
  induction values as [|z values IH]; [reflexivity|].
  rewrite fmap_cons. cbn [foldr]. by rewrite IH, inject_Z_plus.
Qed.

Lemma exact_mean_nan column : omap id column = [] → exact_mean column = None.
Proof. intros Hnone. unfold exact_mean. by rewrite Hnone. Qed.

Lemma exact_mean_exact column (values : list Z) (half : Z) :
  omap id column = inject_Z <$> values →
  values ≠ [] →
  Forall (λ z, (Z.abs z ≤ 2 ^ 20)%Z) values →
  (Z.of_nat (length values) ≤ 2 ^ 20)%Z →
  (2 * foldr Z.add 0 values = half * Z.of_nat (length values))%Z →
  ∃ m, exact_mean column = Some m ∧ Qeq m (half # 2).
Proof.
  intros Hcol Hne _ _ Hhalf. unfold exact_mean. rewrite Hcol.
  destruct values as [|z values]; [done|]. rewrite fmap_cons.
  eexists. split; [reflexivity|].
  rewrite <-fmap_cons, foldr_Qplus_inject_Z, length_fmap.
  set (total := foldr Z.add 0%Z (z :: values)) in *.
  set (n := length (z :: values)) in *.
  assert (0 < Z.of_nat n)%Z as Hn by (unfold n; simpl; lia).
  destruct (Z.of_nat n) as [|count|count] eqn:Hcount; [lia| |lia].
  unfold Qeq, Qdiv, Qmult, Qinv, inject_Z. simpl. lia.
Qed.

#[global] Instance exact_series_mean : SeriesMean :=
  {| mean := exact_mean;
     mean_nan := exact_mean_nan;
     mean_exact := exact_mean_exact |}.

(** ** The stable sort *)

Section stable_sort.
Context {A : Type} (R : relation A) `{!RelDecision R}.

Lemma insert_row_Permutation x l : insert_row R x l ≡ₚ x :: l.
Proof.
  induction l as [|y l IH]; simpl; [done|].
  case_decide; [done|]. rewrite IH. apply perm_swap.
Qed.

Lemma stable_sort_Permutation l : stable_sort R l ≡ₚ l.
Proof.
  induction l as [|x l IH]; simpl; [done|].
  by rewrite insert_row_Permutation, IH.
Qed.

Lemma elem_of_stable_sort x l : x ∈ stable_sort R l ↔ x ∈ l.
Proof. by rewrite stable_sort_Permutation. Qed.

Lemma length_stable_sort l : length (stable_sort R l) = length l.
Proof. by rewrite stable_sort_Permutation. Qed.

Context `{!Total R, !Transitive R}.

Lemma HdRel_insert_row a x l :
  R a x → HdRel R a l → HdRel R a (insert_row R x l).
Proof.
  intros Hax Hl. destruct l as [|y l]; simpl; [by constructor|].
  case_decide; constructor; [done|]. by inversion Hl.
Qed.

Lemma Sorted_insert_row x l : Sorted R l → Sorted R (insert_row R x l).
Proof.
  induction 1 as [|y l Hs IH Hhd]; simpl; [by repeat constructor|].
  case_decide as Hxy.
  - constructor; [by constructor|by constructor].
  - constructor; [done|]. apply HdRel_insert_row; [|done].
    by destruct (total R x y).
Qed.

Lemma Sorted_stable_sort l : Sorted R (stable_sort R l).
Proof.
  induction l as [|x l IH]; simpl; [constructor|].
  by apply Sorted_insert_row.
Qed.

(** Stability: the rows tied R with [a] come out in their input order. *)
Lemma filter_tied_insert_row a x l :
  filter (tied R a) (insert_row R x l) = filter (tied R a) (x :: l).
Proof.
  induction l as [|y l IH]; simpl; [done|].
  case_decide as Hxy; [done|].
  rewrite (filter_cons _ y), IH, !filter_cons.
  destruct (decide (tied R a y)) as [[Hay Hya]|]; [|done].
  destruct (decide (tied R a x)) as [[Hax Hxa]|]; [|done].
  destruct Hxy. by transitivity a.
Qed.

Lemma stable_sort_stable a l :
  filter (tied R a) (stable_sort R l) = filter (tied R a) l.
Proof.
  induction l as [|x l IH]; simpl; [done|].
  by rewrite filter_tied_insert_row, !filter_cons, IH.
Qed.

(** A sorted list is determined by the input order of its tied R rows. *)
Lemma stable_sorted_unique l1 l2 :
  Sorted R l1 → Sorted R l2 →
  (∀ a, filter (tied R a) l1 = filter (tied R a) l2) →
  l1 = l2.
Proof.
  intros H1%Sorted_StronglySorted H2%Sorted_StronglySorted; [|done..].
  revert l2 H2. induction H1 as [|x l1 Hs1 IH Hx]; intros l2 H2 Hf.
  - destruct l2 as [|y l2]; [done|].
    specialize (Hf y). rewrite filter_nil, filter_cons in Hf.
    destruct (decide (tied R y y)) as [|[]]; [done|].
    split; by destruct (total R y y).
  - destruct H2 as [|y l2 Hs2 Hy].
    { specialize (Hf x). rewrite filter_nil, filter_cons in Hf.
      destruct (decide (tied R x x)) as [|[]]; [done|].
      split; by destruct (total R x x). }
    assert (Hrefl : ∀ z, R z z) by (intros z; by destruct (total R z z)).
    assert (Hxy : R x y).
    { assert (y ∈ x :: l1) as Hin.
      { assert (y ∈ filter (tied R y) (x :: l1)) as Hin.
        { rewrite Hf. apply list_elem_of_filter. split; [by split|left]. }
        by apply list_elem_of_filter in Hin as [_ ?]. }
      apply elem_of_cons in Hin as [->|Hin]; [done|].
      by eapply Forall_forall in Hx. }
    assert (Hyx : R y x).
    { assert (x ∈ y :: l2) as Hin.
      { assert (x ∈ filter (tied R x) (y :: l2)) as Hin.
        { rewrite <-Hf. apply list_elem_of_filter. split; [by split|left]. }
        by apply list_elem_of_filter in Hin as [_ ?]. }
      apply elem_of_cons in Hin as [->|Hin]; [done|].
      by eapply Forall_forall in Hy. }
    assert (x = y) as <-.
    { specialize (Hf x). rewrite !filter_cons in Hf.
      rewrite decide_True in Hf by (by split).
      rewrite decide_True in Hf by (by split). by simplify_eq. }
    f_equal. apply IH; [done|]. intros a. specialize (Hf a).
    rewrite !filter_cons in Hf. case_decide; by simplify_eq.
Qed.

Lemma stable_sort_unique l l' :
  Sorted R l' → (∀ a, filter (tied R a) l' = filter (tied R a) l) →
  l' = stable_sort R l.
Proof.
  intros Hs Hf. apply stable_sorted_unique; [done|apply Sorted_stable_sort|].
  intros a. by rewrite stable_sort_stable.
Qed.

End stable_sort.

(** ** [sort_values] on the joined tables *)

Lemma StronglySorted_filter_impl {A} (R R' : relation A) (P : A → Prop)
    `{!∀ x, Decision (P x)} (l : list A) :
  (∀ x y, P x → P y → R x y → R' x y) →
  StronglySorted R l → StronglySorted R' (filter P l).
Proof.
  intros HR. induction 1 as [|x l Hs IH Hx]; [constructor|].
  rewrite filter_cons. case_decide as HP; [|done].
  constructor; [done|]. apply Forall_forall. intros y Hy.
  apply list_elem_of_filter in Hy as [HPy Hy].
  apply HR; [done..|]. by eapply Forall_forall in Hx.
Qed.

Lemma filter_nil_Permutation {A} (P : A → Prop) `{!∀ x, Decision (P x)}
    (l l' : list A) :
  l ≡ₚ l' → filter P l' = [] → filter P l = [].
Proof.
  intros Hp Hnil. apply Permutation_nil_r. by rewrite Hp, Hnil.
Qed.

Section sort_values.
Context {A : Type} (tid : A → string) (seq : A → Z).

#[global] Instance by_trip_id_stop_sequence_total :
  Total (by_trip_id_stop_sequence tid seq).
Proof.
  intros r1 r2. unfold by_trip_id_stop_sequence.
  destruct (decide (tid r1 = tid r2)) as [Heq|Hne].
  - destruct (Z.le_ge_cases (seq r1) (seq r2)); [left|right]; right; auto.
  - destruct (total String.le (tid r1) (tid r2)); [left|right]; left; auto.
Qed.

#[global] Instance by_trip_id_stop_sequence_trans :
  Transitive (by_trip_id_stop_sequence tid seq).
Proof.
  intros r1 r2 r3 [[Hne1 Hle1]|[Heq1 Hs1]] [[Hne2 Hle2]|[Heq2 Hs2]].
  - left. split; [|by etrans]. intros Heq. rewrite <-Heq in Hle2.
    apply Hne1. by apply (anti_symm String.le).
  - left. by rewrite <-Heq2.
  - left. by rewrite Heq1.
  - right. split; [congruence|lia].
Qed.

#[global] Instance by_stop_sequence_total : Total (by_stop_sequence seq).
Proof. intros r1 r2. unfold by_stop_sequence. lia. Qed.

#[global] Instance by_stop_sequence_trans : Transitive (by_stop_sequence seq).
Proof. intros r1 r2 r3. unfold by_stop_sequence. lia. Qed.

Lemma tied_by_trip_id_stop_sequence a x :
  tied (by_trip_id_stop_sequence tid seq) a x
  ↔ tid x = tid a ∧ seq x = seq a.
Proof.
  unfold tied, by_trip_id_stop_sequence. split.
  - intros [[[Hne1 Hle1]|[Heq1 Hs1]] [[Hne2 Hle2]|[Heq2 Hs2]]];
      try congruence.
    + destruct Hne1. by apply (anti_symm String.le).
    + split; [done|lia].
  - intros [Ht Hs]. split; right; split; auto; lia.
Qed.

Lemma tied_by_stop_sequence a x :
  tied (by_stop_sequence seq) a x ↔ seq x = seq a.
Proof. unfold tied, by_stop_sequence. lia. Qed.

Lemma sort_values_Permutation df : sort_values tid seq df ≡ₚ df.
Proof. apply stable_sort_Permutation. Qed.

Lemma Sorted_sort_values df :
  Sorted (by_trip_id_stop_sequence tid seq) (sort_values tid seq df).
Proof. apply Sorted_stable_sort; apply _. Qed.

(** Rows of equal [trip_id] and [stop_sequence] keep their input order. *)
Lemma sort_values_stable t q df :
  filter (λ r, tid r = t ∧ seq r = q) (sort_values tid seq df)
  = filter (λ r, tid r = t ∧ seq r = q) df.
Proof.
  destruct (filter (λ r, tid r = t ∧ seq r = q) df) as [|a l] eqn:Hf.
  - eapply filter_nil_Permutation; [apply sort_values_Permutation|done].
  - rewrite <-Hf. assert (tid a = t ∧ seq a = q) as [<- <-].
    { assert (a ∈ filter (λ r, tid r = t ∧ seq r = q) df) as Hin
        by (rewrite Hf; left).
      by apply list_elem_of_filter in Hin as [? _]. }
    rewrite !(list_filter_iff (λ r, tid r = tid a ∧ seq r = seq a)
                (tied (by_trip_id_stop_sequence tid seq) a))
      by (intros x; by rewrite tied_by_trip_id_stop_sequence).
    apply stable_sort_stable; apply _.
Qed.

(** Within a trip the sorted rows ascend by [stop_sequence]. *)
Lemma sort_values_trip_sorted t df :
  Sorted (by_stop_sequence seq)
    (filter (λ r, tid r = t) (sort_values tid seq df)).
Proof.
  apply StronglySorted_Sorted.
  eapply (StronglySorted_filter_impl (by_trip_id_stop_sequence tid seq)).
  - intros x y Hx Hy [[Hne _]|[_ Hs]]; [congruence|done].
  - apply Sorted_StronglySorted; [apply _|apply Sorted_sort_values].
Qed.

(** The group of a trip is the stable sort of its rows by [stop_sequence]. *)
Lemma sort_values_trip t df :
  filter (λ r, tid r = t) (sort_values tid seq df)
  = stable_sort (by_stop_sequence seq) (filter (λ r, tid r = t) df).
Proof.
  apply stable_sort_unique; [apply _..|apply sort_values_trip_sorted|].
  intros a. rewrite !list_filter_filter.
  rewrite !(list_filter_iff
              (λ x, tied (by_stop_sequence seq) a x ∧ tid x = t)
              (λ r, tid r = t ∧ seq r = seq a))
    by (intros x; rewrite tied_by_stop_sequence; tauto).
  apply sort_values_stable.
Qed.

(** The sorted table depends on the rows of each trip and their order
    only. *)
Lemma sort_values_ext df df' :
  (∀ t, filter (λ r, tid r = t) df = filter (λ r, tid r = t) df') →
  sort_values tid seq df = sort_values tid seq df'.
Proof.
  intros Hf.
  apply (stable_sorted_unique (by_trip_id_stop_sequence tid seq));
    [apply Sorted_sort_values..|].
  intros a. unfold sort_values.
  rewrite !stable_sort_stable by apply _.
  rewrite !(list_filter_iff (tied (by_trip_id_stop_sequence tid seq) a)
              (λ x, seq x = seq a ∧ tid x = tid a))
    by (intros x; rewrite tied_by_trip_id_stop_sequence; tauto).
  by rewrite <-!(list_filter_filter (λ x, seq x = seq a)), Hf.
Qed.

End sort_values.

(** ** Lists *)

Lemma filter_fmap {A B} (f : A → B) (P : B → Prop) `{!∀ y, Decision (P y)}
    (l : list A) :
  filter P (f <$> l) = f <$> filter (λ x, P (f x)) l.
Proof.
  induction l as [|x l IH]; [done|].
  rewrite fmap_cons, !filter_cons, IH. by case_decide.
Qed.

Lemma filter_all {A} (P : A → Prop) `{!∀ x, Decision (P x)} (l : list A) :
  Forall P l → filter P l = l.
Proof.
  induction 1 as [|x l HP _ IH]; [done|].
  by rewrite filter_cons_True, IH.
Qed.

Lemma filter_none {A} (P : A → Prop) `{!∀ x, Decision (P x)} (l : list A) :
  Forall (λ x, ¬ P x) l → filter P l = [].
Proof.
  induction 1 as [|x l HP _ IH]; [done|].
  by rewrite filter_cons_False.
Qed.

Lemma length_filter_elem_of {A} (P : A → Prop) `{!∀ x, Decision (P x)}
    (l : list A) x :
  x ∈ l → P x → 1 ≤ length (filter P l).
Proof.
  intros Hin HP.
  assert (x ∈ filter P l) as Hx by (by apply list_elem_of_filter).
  destruct (filter P l); [by apply elem_of_nil in Hx|simpl; lia].
Qed.

Lemma length_filter_two {A} (P : A → Prop) `{!∀ x, Decision (P x)}
    (l : list A) x y :
  x ≠ y → x ∈ l → y ∈ l → P x → P y → 2 ≤ length (filter P l).
Proof.
  intros Hne Hx Hy HPx HPy.
  apply list_elem_of_split in Hx as (l1 & l2 & ->).
  rewrite filter_app, filter_cons_True, length_app by done. simpl.
  apply elem_of_app in Hy as [Hy|Hy].
  - pose proof (length_filter_elem_of P l1 y Hy HPy). lia.
  - apply elem_of_cons in Hy as [->|Hy]; [done|].
    pose proof (length_filter_elem_of P l2 y Hy HPy). lia.
Qed.

Lemma insert_row_fmap {A B} (f : A → B) (R : relation A) (R' : relation B)
    `{!RelDecision R, !RelDecision R'} x l :
  (∀ x y, R x y ↔ R' (f x) (f y)) →
  f <$> insert_row R x l = insert_row R' (f x) (f <$> l).
Proof.
  intros HR. induction l as [|y l IH]; [done|]. simpl.
  destruct (decide (R x y)) as [Hxy|Hxy].
  - by rewrite decide_True by (by apply HR).
  - rewrite decide_False by (by rewrite <-HR). by rewrite fmap_cons, IH.
Qed.

Lemma stable_sort_fmap {A B} (f : A → B) (R : relation A) (R' : relation B)
    `{!RelDecision R, !RelDecision R'} l :
  (∀ x y, R x y ↔ R' (f x) (f y)) →
  f <$> stable_sort R l = stable_sort R' (f <$> l).
Proof.
  intros HR. induction l as [|x l IH]; [done|]. simpl.
  by rewrite (insert_row_fmap f R R'), IH.
Qed.

Lemma sort_values_fmap {A B} (f : A → B) (tid : A → string) (seq : A → Z)
    (tid' : B → string) (seq' : B → Z) df :
  (∀ x, tid' (f x) = tid x) → (∀ x, seq' (f x) = seq x) →
  f <$> sort_values tid seq df = sort_values tid' seq' (f <$> df).
Proof.
  intros Ht Hs. apply stable_sort_fmap. intros x y.
  unfold by_trip_id_stop_sequence. by rewrite !Ht, !Hs.
Qed.

(** ** The left join *)

Section merge_left.
Context {L R O : Type} (right : list R).
Context (on_left : L → string) (on_right : R → string).
Context (row : L → option R → O) (key : O → string).
Hypothesis key_row : ∀ l r, key (row l r) = on_left l.

Local Abbreviation matched := (matched right on_left on_right row).

Lemma merge_left_cons l left :
  merge_left (l :: left) right on_left on_right row
  = matched l ++ merge_left left right on_left on_right row.
Proof. done. Qed.

Lemma matched_key l : Forall (λ o, key o = on_left l) (matched l).
Proof.
  unfold matched. destruct (filter _ right) as [|r rs].
  - by repeat constructor.
  - apply Forall_fmap, Forall_forall. intros r' _. apply key_row.
Qed.

Lemma matched_nonempty l : matched l ≠ [].
Proof. unfold matched. by destruct (filter _ right). Qed.

(** The join keeps the key of every left row: the rows of a trip in the
    joined table are the join of its rows. *)
Lemma filter_merge_left t left :
  filter (λ o, key o = t) (merge_left left right on_left on_right row)
  = merge_left (filter (λ l, on_left l = t) left) right on_left on_right row.
Proof.
  induction left as [|l left IH]; [done|].
  rewrite merge_left_cons, filter_app, IH, filter_cons.
  pose proof (matched_key l) as Hk. case_decide as Ht.
  - rewrite merge_left_cons. f_equal. apply filter_all.
    eapply Forall_impl; [done|]. simpl. congruence.
  - rewrite filter_none; [done|].
    eapply Forall_impl; [done|]. simpl. congruence.
Qed.

Lemma elem_of_merge_left_key t left :
  t ∈ key <$> merge_left left right on_left on_right row
  ↔ t ∈ on_left <$> left.
Proof.
  induction left as [|l left IH]; [done|].
  rewrite merge_left_cons, fmap_app, elem_of_app, IH, fmap_cons, elem_of_cons.
  pose proof (matched_key l) as Hk. pose proof (matched_nonempty l) as Hn.
  split; (intros [Hl|?]; [left|by right]).
  - apply list_elem_of_fmap in Hl as (o & -> & Ho).
    by eapply Forall_forall in Hk.
  - subst t. destruct (matched l) as [|o os]; [done|].
    apply Forall_cons in Hk as [<- _]. left.
Qed.

End merge_left.

(** The join depends on the right table through the rows that match. *)
Lemma merge_left_ext_right {L R O} (left : list L) (right right' : list R)
    (on_left : L → string) (on_right : R → string) (row : L → option R → O) :
  (∀ l, l ∈ left →
     filter (λ r, on_right r = on_left l) right'
     = filter (λ r, on_right r = on_left l) right) →
  merge_left left right' on_left on_right row
  = merge_left left right on_left on_right row.
Proof.
  induction left as [|l left IH]; [done|]. intros Hf.
  rewrite !merge_left_cons. f_equal.
  - unfold matched. rewrite Hf; [done|left].
  - apply IH. intros l' Hl'. apply Hf. by right.
Qed.

(** ** The counter *)

Lemma lookup_increment (segments : gmap (list string) nat) k s :
  increment segments k !! s
  = if decide (k = s) then Some (S (default 0 (segments !! s)))
    else segments !! s.
Proof.
  unfold increment. rewrite lookup_insert. by case_decide; subst.
Qed.

(** After the loop a key holds its old count plus one for each group
    that produced it; other keys are as before. *)
Lemma lookup_foldl_increment (ks : list (list string))
    (segments : gmap (list string) nat) s :
  foldl increment segments ks !! s
  = if decide (s ∈ ks)
    then Some (default 0 (segments !! s) + length (filter (λ k, k = s) ks))
    else segments !! s.
Proof.
  revert segments. induction ks as [|k ks IH]; intros segments.
  { by destruct (decide (s ∈ [])) as [?%elem_of_nil|]. }
  change (foldl increment segments (k :: ks))
    with (foldl increment (increment segments k) ks).
  rewrite IH, lookup_increment, filter_cons.
  destruct (decide (k = s)) as [->|Hks].
  - rewrite (decide_True (P := s ∈ s :: ks)) by left. simpl.
    case_decide; f_equal; [lia|].
    rewrite filter_none; [simpl; lia|].
    apply Forall_forall. by intros ? ? ->.
  - case_decide as Hin.
    + by rewrite decide_True by (by right).
    + rewrite decide_False; [done|].
      intros [->|?]%elem_of_cons; done.
Qed.

Lemma total_count_insert (segments : gmap (list string) nat) k n :
  segments !! k = None →
  total_count (<[k := n]> segments) = n + total_count segments.
Proof.
  intros Hk. unfold total_count.
  rewrite map_fold_insert_L; [done| |done]. intros; lia.
Qed.

Lemma total_count_increment (segments : gmap (list string) nat) k :
  total_count (increment segments k) = S (total_count segments).
Proof.
  unfold increment. destruct (segments !! k) as [n|] eqn:Hk; simpl.
  - rewrite <-(insert_delete_id segments k n Hk) at 2.
    rewrite <-insert_delete_eq.
    rewrite !total_count_insert by apply lookup_delete_eq. done.
  - by rewrite total_count_insert.
Qed.

Lemma total_count_foldl_increment (ks : list (list string))
    (segments : gmap (list string) nat) :
  total_count (foldl increment segments ks)
  = total_count segments + length ks.
Proof.
  revert segments. induction ks as [|k ks IH]; intros segments; simpl.
  - lia.
  - rewrite IH, total_count_increment. lia.
Qed.

(** ** Grouping *)

Section groupby.
Context {A : Type} (tid : A → string).

Local Abbreviation trip_keys := (trip_keys tid).

Lemma elem_of_trip_keys df t : t ∈ trip_keys df ↔ t ∈ tid <$> df.
Proof.
  unfold trip_keys. by rewrite elem_of_stable_sort, elem_of_remove_dups.
Qed.

Lemma NoDup_trip_keys df : NoDup (trip_keys df).
Proof.
  unfold trip_keys. rewrite stable_sort_Permutation.
  apply NoDup_remove_dups.
Qed.

Lemma trip_keys_Permutation df df' :
  (∀ t, t ∈ tid <$> df ↔ t ∈ tid <$> df') → trip_keys df ≡ₚ trip_keys df'.
Proof.
  intros Hin. apply NoDup_Permutation; [apply NoDup_trip_keys..|].
  intros t. by rewrite !elem_of_trip_keys.
Qed.

Lemma groupby_keys df :
  groupby tid df = (λ k, (k, filter (λ r, tid r = k) df)) <$> trip_keys df.
Proof. done. Qed.

(** No group is empty. *)
Lemma groupby_nonempty df k : k ∈ trip_keys df → filter (λ r, tid r = k) df ≠ [].
Proof.
  intros Hk%elem_of_trip_keys. apply list_elem_of_fmap in Hk as (r & -> & Hr).
  intros Hnil. by eapply (filter_nil_not_elem_of _ _ r) in Hnil.
Qed.

End groupby.

(** ** [extract_segments] *)

Lemma extract_segments_loaded gtfs_files trips stop_times routes :
  trips_txt gtfs_files = Some trips →
  stop_times_txt gtfs_files = Some stop_times →
  routes_txt gtfs_files = Some routes →
  extract_segments gtfs_files
  = ([], inr (count_segments
                (groupby ts_trip_id (trip_stop_times stop_times trips)))).
Proof.
  intros Ht Hs Hr. unfold extract_segments. by rewrite Ht, Hs, Hr.
Qed.

Lemma count_segments_groupby df :
  count_segments (groupby ts_trip_id df)
  = foldl increment ∅ (trip_segment df <$> trip_keys ts_trip_id df).
Proof.
  unfold count_segments. by rewrite groupby_keys, !foldl_fmap.
Qed.

(** The count of a segment is the number of trips whose group gives it. *)
Lemma lookup_count_segments df s :
  count_segments (groupby ts_trip_id df) !! s
  = if decide (s ∈ trip_segment df <$> trip_keys ts_trip_id df)
    then Some (length (filter (λ t, trip_segment df t = s)
                         (trip_keys ts_trip_id df)))
    else None.
Proof.
  rewrite count_segments_groupby, lookup_foldl_increment, lookup_empty.
  case_decide; [|done]. by rewrite filter_fmap, length_fmap.
Qed.

Lemma elem_of_joined_trip_ids stop_times trips t :
  t ∈ ts_trip_id <$> joined_trip_stops stop_times trips
  ↔ t ∈ st_trip_id <$> stop_times.
Proof. by apply elem_of_merge_left_key. Qed.

Lemma elem_of_trip_stop_times_keys stop_times trips t :
  t ∈ trip_keys ts_trip_id (trip_stop_times stop_times trips)
  ↔ t ∈ st_trip_id <$> stop_times.
Proof.
  rewrite elem_of_trip_keys. unfold trip_stop_times.
  rewrite sort_values_Permutation. apply elem_of_joined_trip_ids.
Qed.

(** The group of a trip holds its joined rows by ascending
    [stop_sequence], ties in row order. *)
Lemma trip_segment_ordered stop_times trips t :
  trip_segment (trip_stop_times stop_times trips) t
  = ordered_stop_ids (joined_trip_stops stop_times trips) t.
Proof.
  unfold trip_segment, ordered_stop_ids, trip_stop_times.
  by rewrite sort_values_trip.
Qed.

Lemma trip_keys_distinct stop_times trips :
  trip_keys ts_trip_id (trip_stop_times stop_times trips)
  ≡ₚ elements (distinct (st_trip_id <$> stop_times)).
Proof.
  apply NoDup_Permutation; [apply NoDup_trip_keys|apply NoDup_elements|].
  intros t. rewrite elem_of_trip_stop_times_keys, elem_of_elements.
  unfold distinct. by rewrite elem_of_list_to_set.
Qed.

(** Every trip of the table has its segment counted at least once. *)
Lemma lookup_count_segments_trip df t :
  t ∈ trip_keys ts_trip_id df →
  ∃ n, count_segments (groupby ts_trip_id df) !! trip_segment df t
       = Some (S n).
Proof.
  intros Hkey. rewrite lookup_count_segments.
  rewrite decide_True by (apply list_elem_of_fmap; eauto).
  pose proof (length_filter_elem_of
                (λ t', trip_segment df t' = trip_segment df t)
                _ t Hkey eq_refl) as Hlen.
  destruct (length _) as [|n]; [lia|eauto].
Qed.

(** With unique [trip_id]s in [trips] the join neither drops nor repeats a
    [stop_times] row. *)
Lemma joined_trip_stops_unique stop_times trips :
  NoDup (trip_id <$> trips) →
  drop_route <$> joined_trip_stops stop_times trips
  = (λ st, {| ts_trip_id := st_trip_id st;
              ts_stop_sequence := st_stop_sequence st;
              ts_stop_id := st_stop_id st;
              ts_route_id := None |}) <$> stop_times.
Proof.
  intros Hnd. induction stop_times as [|st sts IH]; [done|].
  unfold joined_trip_stops in *.
  rewrite merge_left_cons, fmap_app, IH, fmap_cons. clear IH.
  apply (f_equal (λ l, l ++ _) (y := [_])). unfold matched.
  destruct (filter _ trips) as [|r [|r' rs]] eqn:Hf; [done..|].
  exfalso. assert (NoDup (trip_id <$> filter (λ r, trip_id r = st_trip_id st)
                                        trips)) as Hnd'.
  { apply (sublist_NoDup _ (trip_id <$> trips)); [done|].
    apply fmap_sublist, sublist_filter. }
  rewrite Hf in Hnd'. simpl in Hnd'.
  assert (trip_id r = st_trip_id st ∧ trip_id r' = st_trip_id st) as [Hr Hr'].
  { split; eapply (proj1 (list_elem_of_filter (λ r, trip_id r = st_trip_id st)
                            trips _)); rewrite Hf; [left|right; left]. }
  apply NoDup_cons in Hnd' as [Hnin _]. apply Hnin. rewrite Hr, <-Hr'. left.
Qed.

(** The counts do not look at [route_id]. *)
Lemma count_segments_drop_route df :
  count_segments
    (groupby ts_trip_id
       (sort_values ts_trip_id ts_stop_sequence (drop_route <$> df)))
  = count_segments
      (groupby ts_trip_id (sort_values ts_trip_id ts_stop_sequence df)).
Proof.
  rewrite <-(sort_values_fmap drop_route ts_trip_id ts_stop_sequence) by done.
  generalize (sort_values ts_trip_id ts_stop_sequence df). clear df.
  intros df. rewrite !count_segments_groupby. f_equal.
  assert (trip_keys ts_trip_id (drop_route <$> df) = trip_keys ts_trip_id df)
    as ->.
  { unfold trip_keys. by rewrite <-list_fmap_compose. }
  apply list_fmap_ext. intros _ t _. unfold trip_segment.
  by rewrite filter_fmap, <-list_fmap_compose.
Qed.

Lemma drop_route_matched trips st :
  drop_route
    <$> matched trips st_trip_id trip_id
          (λ st t, {| ts_trip_id := st_trip_id st;
                      ts_stop_sequence := st_stop_sequence st;
                      ts_stop_id := st_stop_id st;
                      ts_route_id := t ≫= route_id |}) st
  = replicate
      (length (filter (λ x, x = st_trip_id st) (trip_id <$> trips)) `max` 1)
      {| ts_trip_id := st_trip_id st;
         ts_stop_sequence := st_stop_sequence st;
         ts_stop_id := st_stop_id st;
         ts_route_id := None |}.
Proof.
  unfold matched. rewrite filter_fmap, length_fmap.
  destruct (filter _ trips) as [|r rs]; [done|].
  rewrite <-list_fmap_compose.
  rewrite Nat.max_l by (simpl; lia). by apply const_fmap.
Qed.

Lemma drop_route_joined stop_times trips trips' :
  trip_id <$> trips' = trip_id <$> trips →
  drop_route <$> joined_trip_stops stop_times trips'
  = drop_route <$> joined_trip_stops stop_times trips.
Proof.
  intros Hids. induction stop_times as [|st sts IH]; [done|].
  unfold joined_trip_stops in *.
  by rewrite !merge_left_cons, !fmap_app, IH, !drop_route_matched, Hids.
Qed.

Lemma count_segments_routes stop_times trips trips' :
  trip_id <$> trips' = trip_id <$> trips →
  count_segments (groupby ts_trip_id (trip_stop_times stop_times trips'))
  = count_segments (groupby ts_trip_id (trip_stop_times stop_times trips)).
Proof.
  intros Hids. unfold trip_stop_times.
  rewrite <-(count_segments_drop_route (joined_trip_stops _ trips')).
  rewrite <-(count_segments_drop_route (joined_trip_stops _ trips)).
  by rewrite (drop_route_joined _ _ _ Hids).
Qed.

(** C2. For every trip the segment that [extract_segments] counts lists
    the [stop_id]s of the trip's rows by ascending [stop_sequence]: the
    group is a rearrangement of the trip's joined rows, its
    [stop_sequence]s ascend, and its [stop_id] tuple is a key of the
    result. In particular [stop_sequence]s 3, 1, 2 at stops A, B, C give
    the segment (B, C, A). *)
Theorem segment_in_stop_sequence_order :
  (∀ gtfs_files trips stop_times routes t,
     trips_txt gtfs_files = Some trips →
     stop_times_txt gtfs_files = Some stop_times →
     routes_txt gtfs_files = Some routes →
     t ∈ st_trip_id <$> stop_times →
     let group :=
       filter (λ r, ts_trip_id r = t) (trip_stop_times stop_times trips) in
     ∃ segments n,
       extract_segments gtfs_files = ([], inr segments)
       ∧ segments !! (ts_stop_id <$> group) = Some (S n)
       ∧ Sorted Z.le (ts_stop_sequence <$> group)
       ∧ group ≡ₚ filter (λ r, ts_trip_id r = t)
                    (joined_trip_stops stop_times trips))
  ∧ extract_segments
      (table_set [trip_row "T1" "R1"] unordered_stop_times two_routes)
    = ([], inr {[ ["B"; "C"; "A"] := 1 ]}).
Proof.
  split; [|reflexivity].
  intros gtfs_files trips stop_times routes t Ht Hs Hr Hin group.
  set (df := trip_stop_times stop_times trips) in *.
  assert (t ∈ trip_keys ts_trip_id df) as Hkey
    by (by apply elem_of_trip_stop_times_keys).
  destruct (lookup_count_segments_trip df t Hkey) as [n Hn].
  exists (count_segments (groupby ts_trip_id df)), n.
  split; [by apply (extract_segments_loaded _ trips stop_times routes)|].
  split; [done|]. split.
  - eapply Sorted_fmap; [|apply sort_values_trip_sorted]. done.
  - unfold group, df, trip_stop_times.
    by rewrite sort_values_Permutation.
Qed.

Lemma segment_in_stop_sequence_order_witness :
  ∃ segments n,
    extract_segments
      (table_set [trip_row "T1" "R1"] unordered_stop_times two_routes)
    = ([], inr segments)
    ∧ segments !! ["B"; "C"; "A"] = Some (S n)
    ∧ Sorted Z.le [1; 2; 3]%Z.
Proof.
  destruct (proj1 segment_in_stop_sequence_order
              (table_set [trip_row "T1" "R1"] unordered_stop_times two_routes)
              [trip_row "T1" "R1"] unordered_stop_times two_routes "T1"
              eq_refl eq_refl eq_refl)
    as (segments & n & Hrun & Hkey & Hsorted & _).
  - vm_compute. left.
  - exists segments, n. split; [exact Hrun|]. split; [exact Hkey|].
    exact Hsorted.
Defined.

(** C3. Permuting the [stop_times] rows while keeping the relative order
    of the rows of each [trip_id] leaves the result of
    [extract_segments] unchanged. *)
Theorem extract_segments_row_order gtfs_files trips stop_times routes
    stop_times' :
  trips_txt gtfs_files = Some trips →
  stop_times_txt gtfs_files = Some stop_times →
  routes_txt gtfs_files = Some routes →
  stop_times' ≡ₚ stop_times →
  (∀ t, filter (λ r, st_trip_id r = t) stop_times'
        = filter (λ r, st_trip_id r = t) stop_times) →
  ∃ segments,
    extract_segments gtfs_files = ([], inr segments)
    ∧ extract_segments (with_stop_times gtfs_files stop_times')
      = ([], inr segments).
Proof.
  intros Ht Hs Hr _ Hf. eexists.
  split; [by apply (extract_segments_loaded _ trips stop_times routes)|].
  rewrite (extract_segments_loaded _ trips stop_times' routes) by done.
  assert (trip_stop_times stop_times' trips = trip_stop_times stop_times trips)
    as ->; [|done].
  unfold trip_stop_times. apply sort_values_ext. intros t.
  unfold joined_trip_stops.
  by rewrite !(filter_merge_left _ _ _ _ ts_trip_id), Hf.
Qed.

Lemma extract_segments_row_order_witness :
  ∃ segments,
    extract_segments (table_set shared_trips shared_stop_times two_routes)
    = ([], inr segments)
    ∧ extract_segments
        (with_stop_times
           (table_set shared_trips shared_stop_times two_routes)
           shared_stop_times_permuted)
      = ([], inr segments).
Proof.
  apply (extract_segments_row_order
           (table_set shared_trips shared_stop_times two_routes)
           shared_trips shared_stop_times two_routes
           shared_stop_times_permuted).
  - reflexivity.
  - reflexivity.
  - reflexivity.
  - unfold shared_stop_times_permuted, shared_stop_times.
    apply (Permutation_trans (l' :=
             [stop_time_row "T2" 1 "A"; stop_time_row "T1" 1 "A";
              stop_time_row "T2" 2 "B"; stop_time_row "T1" 2 "B"])).
    + apply perm_skip, perm_swap.
    + apply (Permutation_trans (l' :=
               [stop_time_row "T1" 1 "A"; stop_time_row "T2" 1 "A";
                stop_time_row "T2" 2 "B"; stop_time_row "T1" 2 "B"])).
      * apply perm_swap.
      * do 2 apply perm_skip. apply perm_swap.
  - intros t. unfold shared_stop_times_permuted, shared_stop_times.
    rewrite !filter_cons, !filter_nil. simpl.
    destruct (decide ("T2" = t)) as [<-|]; [reflexivity|].
    destruct (decide ("T1" = t)) as [<-|]; reflexivity.
Defined.

(** C4, as the specification states it, fails: a trip of [trips] without
    [stop_times] rows leaves no empty-tuple segment in the result. *)
Lemma lone_trip_not_counted :
  "T1" ∈ trip_id <$> [trip_row "T1" "R1"]
  ∧ filter (λ r, st_trip_id r = "T1") ([] : list StopTimeRow) = []
  ∧ extract_segments lone_trip_files = ([], inr ∅)
  ∧ ¬ ∃ segments n,
        extract_segments lone_trip_files = ([], inr segments)
        ∧ segments !! [] = Some (S n).
Proof.
  split; [left|]. split; [reflexivity|]. split; [reflexivity|].
  intros (segments & n & Hrun & Hkey).
  change (extract_segments lone_trip_files) with
    (([], inr ∅) : Run (gmap (list string) nat)) in Hrun.
  injection Hrun as <-.
  by rewrite lookup_empty in Hkey.
Qed.

(** C4, amended. A trip of [trips] that has no [stop_times] row
    contributes no segment: the empty tuple is never a key of the result,
    and the result is the one of the table set without that trip. *)
Theorem trip_without_stop_times gtfs_files trips stop_times routes t :
  trips_txt gtfs_files = Some trips →
  stop_times_txt gtfs_files = Some stop_times →
  routes_txt gtfs_files = Some routes →
  t ∈ trip_id <$> trips →
  t ∉ st_trip_id <$> stop_times →
  ∃ segments,
    extract_segments gtfs_files = ([], inr segments)
    ∧ segments !! [] = None
    ∧ extract_segments
        (with_trips gtfs_files (filter (λ r, trip_id r ≠ t) trips))
      = ([], inr segments).
Proof.
  intros Ht Hs Hr _ Hnin. eexists.
  split; [by apply (extract_segments_loaded _ trips stop_times routes)|].
  split.
  - rewrite lookup_count_segments. case_decide as Hin; [|done].
    apply list_elem_of_fmap in Hin as (k & Hnil & Hk).
    apply groupby_nonempty in Hk. unfold trip_segment in Hnil.
    symmetry in Hnil. by apply fmap_nil_inv in Hnil.
  - rewrite (extract_segments_loaded _ (filter (λ r, trip_id r ≠ t) trips)
               stop_times routes) by done.
    assert (joined_trip_stops stop_times (filter (λ r, trip_id r ≠ t) trips)
            = joined_trip_stops stop_times trips) as Hj; [|
      unfold trip_stop_times; by rewrite Hj].
    apply merge_left_ext_right. intros st Hst.
    rewrite list_filter_filter. apply list_filter_iff. intros r.
    split; [by intros [? _]|]. intros Heq. split; [done|].
    intros Hrt. apply Hnin, list_elem_of_fmap. exists st.
    split; [congruence|done].
Qed.

Lemma trip_without_stop_times_witness :
  ∃ segments,
    extract_segments
      (table_set (trip_row "T3" "R1" :: shared_trips) shared_stop_times
         two_routes)
    = ([], inr segments)
    ∧ segments !! [] = None
    ∧ extract_segments
        (with_trips
           (table_set (trip_row "T3" "R1" :: shared_trips) shared_stop_times
              two_routes)
           (filter (λ r, trip_id r ≠ "T3")
              (trip_row "T3" "R1" :: shared_trips)))
      = ([], inr segments).
Proof.
  apply (trip_without_stop_times
           (table_set (trip_row "T3" "R1" :: shared_trips) shared_stop_times
              two_routes)
           (trip_row "T3" "R1" :: shared_trips) shared_stop_times two_routes
           "T3").
  - reflexivity.
  - reflexivity.
  - reflexivity.
  - vm_compute. left.
  - vm_compute. intros Hin.
    repeat (apply elem_of_cons in Hin as [Hin|Hin]; [discriminate Hin|]).
    by apply elem_of_nil in Hin.
Defined.

(** C5. When [trips], [stop_times] or [routes] is missing,
    [extract_segments] prints the missing-file diagnostic and returns the
    empty counter; no exception escapes. *)
Theorem missing_table_empty_counter gtfs_files :
  trips_txt gtfs_files = None
  ∨ stop_times_txt gtfs_files = None
  ∨ routes_txt gtfs_files = None →
  ∃ key,
    key ∈ ["trips.txt"; "stop_times.txt"; "routes.txt"]
    ∧ extract_segments gtfs_files
      = ([Print ("Error: Missing required file '" +:+ key
                 +:+ "' in GTFS data")], inr ∅).
Proof.
  intros Hmissing. unfold extract_segments.
  destruct (trips_txt gtfs_files) as [trips|].
  - destruct (stop_times_txt gtfs_files) as [stop_times|].
    + destruct (routes_txt gtfs_files) as [routes|].
      * by destruct Hmissing as [?|[?|?]].
      * exists "routes.txt". split; [|reflexivity]. do 2 right. left.
    + exists "stop_times.txt". split; [|reflexivity]. right. left.
  - exists "trips.txt". split; [|reflexivity]. left.
Qed.

Lemma missing_table_empty_counter_witness :
  ∃ key,
    key ∈ ["trips.txt"; "stop_times.txt"; "routes.txt"]
    ∧ extract_segments
        {| trips_txt := Some shared_trips;
           stop_times_txt := Some shared_stop_times;
           routes_txt := None; stops_txt := None |}
      = ([Print ("Error: Missing required file '" +:+ key
                 +:+ "' in GTFS data")], inr ∅).
Proof.
  apply (missing_table_empty_counter
           {| trips_txt := Some shared_trips;
              stop_times_txt := Some shared_stop_times;
              routes_txt := None; stops_txt := None |}).
  right. right. reflexivity.
Defined.

(** C7. In the joined tables of [extract_segments] and of
    [plot_routes_on_map], after the sort, the rows of each [trip_id]
    ascend by [stop_sequence], rows of equal [trip_id] and
    [stop_sequence] keep the order they had before the sort, and the
    rows of a trip are the stable sort of that trip's rows alone. *)
Theorem trip_rows_sorted_stable stop_times trips stops_df :
  (∀ t, Sorted Z.le
          (ts_stop_sequence
             <$> filter (λ r, ts_trip_id r = t)
                   (trip_stop_times stop_times trips)))
  ∧ (∀ t q,
       filter (λ r, ts_trip_id r = t ∧ ts_stop_sequence r = q)
         (trip_stop_times stop_times trips)
       = filter (λ r, ts_trip_id r = t ∧ ts_stop_sequence r = q)
           (joined_trip_stops stop_times trips))
  ∧ (∀ t, filter (λ r, ts_trip_id r = t) (trip_stop_times stop_times trips)
          = stable_sort (by_stop_sequence ts_stop_sequence)
              (filter (λ r, ts_trip_id r = t)
                 (joined_trip_stops stop_times trips)))
  ∧ (∀ t, Sorted Z.le
            (p_stop_sequence
               <$> filter (λ r, p_trip_id r = t)
                     (plot_trip_stop_times stop_times stops_df trips)))
  ∧ (∀ t q,
       filter (λ r, p_trip_id r = t ∧ p_stop_sequence r = q)
         (plot_trip_stop_times stop_times stops_df trips)
       = filter (λ r, p_trip_id r = t ∧ p_stop_sequence r = q)
           (plot_joined stop_times stops_df trips))
  ∧ (∀ t, filter (λ r, p_trip_id r = t)
            (plot_trip_stop_times stop_times stops_df trips)
          = stable_sort (by_stop_sequence p_stop_sequence)
              (filter (λ r, p_trip_id r = t)
                 (plot_joined stop_times stops_df trips))).
Proof.
  unfold trip_stop_times, plot_trip_stop_times. repeat split.
  - intros t. eapply Sorted_fmap; [|apply sort_values_trip_sorted]. done.
  - intros t q. apply sort_values_stable.
  - intros t. apply sort_values_trip.
  - intros t. eapply Sorted_fmap; [|apply sort_values_trip_sorted]. done.
  - intros t q. apply sort_values_stable.
  - intros t. apply sort_values_trip.
Qed.

(** C10. The counts returned by [extract_segments] add up to the number of
    distinct [trip_id]s of [stop_times]. *)
Theorem total_count_distinct_trips gtfs_files trips stop_times routes :
  trips_txt gtfs_files = Some trips →
  stop_times_txt gtfs_files = Some stop_times →
  routes_txt gtfs_files = Some routes →
  ∃ segments,
    extract_segments gtfs_files = ([], inr segments)
    ∧ total_count segments = size (distinct (st_trip_id <$> stop_times)).
Proof.
  intros Ht Hs Hr. eexists.
  split; [by apply (extract_segments_loaded _ trips stop_times routes)|].
  rewrite count_segments_groupby, total_count_foldl_increment, length_fmap.
  rewrite (trip_keys_distinct stop_times trips).
  unfold total_count. by rewrite map_fold_empty.
Qed.

Lemma total_count_distinct_trips_witness :
  ∃ segments,
    extract_segments (table_set shared_trips shared_stop_times two_routes)
    = ([], inr segments)
    ∧ total_count segments
      = size (distinct (st_trip_id <$> shared_stop_times)).
Proof.
  apply (total_count_distinct_trips
           (table_set shared_trips shared_stop_times two_routes)
           shared_trips shared_stop_times two_routes); reflexivity.
Defined.

(** ** Runs *)

Lemma bind_value {A B} (c : Run A) (k : A → Run B) out x :
  c = (out, inr x) → c ≫= k = (out ++ (k x).1, (k x).2).
Proof. by intros ->. Qed.

Lemma bind_raised {A B} (c : Run A) (k : A → Run B) out e :
  c = (out, inl e) → c ≫= k = (out, inl e).
Proof. by intros ->. Qed.

Lemma prints_only_app out1 out2 :
  prints_only out1 → prints_only out2 → prints_only (out1 ++ out2).
Proof. apply Forall_app_2. Qed.

Lemma prints_only_no_save out filename map_obj :
  prints_only out → Save filename map_obj ∉ out.
Proof.
  intros Hout Hin. by eapply Forall_forall in Hout; [|done].
Qed.

(** ** [load_gtfs_from_directory] *)

Lemma load_file_spec {A} directory file_name (file : FileState A) :
  ∃ out, prints_only out
         ∧ load_file directory file_name file = (out, inr (frame_of file)).
Proof.
  destruct file; eexists; (split; [|reflexivity]); by repeat constructor.
Qed.

(** The loader never raises; [files] holds the tables that parsed, and
    the feed is marked incomplete when one is missing. *)
Lemma load_gtfs_from_directory_spec fs directory :
  ∃ out,
    prints_only out
    ∧ load_gtfs_from_directory fs directory
      = (out, inr (files_of (fs directory)))
    ∧ (len_files (files_of (fs directory)) ≠ length required_files →
       Print ("Warning: Missing some GTFS files in " +:+ directory) ∈ out).
Proof.
  unfold load_gtfs_from_directory.
  destruct (load_file_spec directory "trips.txt" (trips_file (fs directory)))
    as (o1 & Ho1 & ->).
  destruct (load_file_spec directory "stop_times.txt"
              (stop_times_file (fs directory))) as (o2 & Ho2 & ->).
  destruct (load_file_spec directory "routes.txt"
              (routes_file (fs directory))) as (o3 & Ho3 & ->).
  destruct (load_file_spec directory "stops.txt" (stops_file (fs directory)))
    as (o4 & Ho4 & ->).
  unfold mbind, Run_bind. cbn [fst snd]. fold (files_of (fs directory)).
  destruct (decide (len_files (files_of (fs directory))
                    ≠ length required_files)) as [Hlen|Hlen]; cbn [fst snd].
  - eexists. split; [|split; [reflexivity|]].
    + repeat apply prints_only_app; try done; by repeat constructor.
    + intros _. set_solver.
  - eexists. split; [|split; [reflexivity|done]].
    repeat apply prints_only_app; try done; by repeat constructor.
Qed.

Lemma len_files_missing d :
  loaded (trips_file d) = false ∨ loaded (stop_times_file d) = false
  ∨ loaded (routes_file d) = false ∨ loaded (stops_file d) = false →
  len_files (files_of d) ≠ length required_files.
Proof.
  unfold len_files, files_of. simpl.
  destruct (trips_file d), (stop_times_file d), (routes_file d),
    (stops_file d); simpl; intros [?|[?|[?|?]]]; done || lia.
Qed.

(** ** [plot_routes_on_map] *)

(** Without [stops], [trips] or [stop_times] the renderer prints a
    diagnostic and returns no map. *)
Lemma plot_routes_on_map_missing `{!SeriesMean} gtfs_files :
  stops_txt gtfs_files = None ∨ trips_txt gtfs_files = None
  ∨ stop_times_txt gtfs_files = None →
  ∃ line, plot_routes_on_map gtfs_files = ([Print line], inr None).
Proof.
  intros Hmissing. unfold plot_routes_on_map.
  destruct (stops_txt gtfs_files) as [stops_df|]; [|by eexists].
  case_decide; [by eexists|].
  destruct (trips_txt gtfs_files) as [trips_df|]; [|by eexists].
  destruct (stop_times_txt gtfs_files) as [stop_times_df|]; [|by eexists].
  by destruct Hmissing as [?|[?|?]].
Qed.

(** Drawing the trips neither fails nor moves the map. *)
Lemma plot_trips_spec groups map_obj :
  ∃ out map_obj',
    plot_trips groups map_obj = (out, inr map_obj')
    ∧ prints_only out
    ∧ location map_obj' = location map_obj
    ∧ zoom_start map_obj' = zoom_start map_obj.
Proof.
  revert map_obj. induction groups as [|[trip group] groups IH];
    intros map_obj.
  { exists [], map_obj. split; [done|]. split; [constructor|done]. }
  simpl. destruct (coordinates_of group) as [|c cs].
  - destruct (IH map_obj) as (out & m & Hrun & Hout & Hloc & Hzoom).
    exists (Print ("Skipping trip " +:+ trip
                   +:+ ": No valid coordinates found.") :: out), m.
    split; [by rewrite Hrun|]. split; [by constructor|done].
  - destruct (IH (add_polyline (c :: cs) map_obj))
      as (out & m & Hrun & Hout & Hloc & Hzoom).
    by exists out, m.
Qed.

Lemma plot_routes_on_map_drawn `{!SeriesMean} gtfs_files stops_df trips_df
    stop_times_df
    lat lon :
  stops_txt gtfs_files = Some stops_df →
  "stop_lat" ∈ stops_columns stops_df →
  "stop_lon" ∈ stops_columns stops_df →
  trips_txt gtfs_files = Some trips_df →
  stop_times_txt gtfs_files = Some stop_times_df →
  mean (stop_lat <$> stops_rows stops_df) = Some lat →
  mean (stop_lon <$> stops_rows stops_df) = Some lon →
  ∃ out map_obj,
    plot_routes_on_map gtfs_files = (out, inr (Some map_obj))
    ∧ prints_only out
    ∧ location map_obj = (lat, lon)
    ∧ zoom_start map_obj = 12%Z.
Proof.
  intros Hstops Hlat Hlon Htrips Hst Hmlat Hmlon. unfold plot_routes_on_map.
  rewrite Hstops, Htrips, Hst, Hmlat, Hmlon.
  rewrite decide_False by (intros [?|?]; done).
  destruct (plot_trips_spec
              (groupby p_trip_id
                 (plot_trip_stop_times stop_times_df stops_df trips_df))
              {| location := (lat, lon); zoom_start := 12; polylines := [] |})
    as (out & m & Hrun & Hout & Hloc & Hzoom).
  exists out, m. simpl. unfold mbind at 1, Run_bind; simpl.
  rewrite Hrun. simpl. by rewrite app_nil_r.
Qed.

(** ** [analyze_gtfs_feeds] *)

Lemma frame_of_not_loaded {A} (file : FileState A) :
  loaded file = false → frame_of file = None.
Proof. by destruct file. Qed.

(** A feed without [trips], [stop_times] or [stops] goes through the loop
    body without an artifact and without an exception. *)
Lemma process_feed_no_map `{!SeriesMean} fs directory :
  loaded (trips_file (fs directory)) = false
  ∨ loaded (stop_times_file (fs directory)) = false
  ∨ loaded (stops_file (fs directory)) = false →
  ∃ out, prints_only out ∧ process_feed fs directory = (out, inr tt).
Proof.
  intros Hmissing. unfold process_feed.
  destruct (load_gtfs_from_directory_spec fs directory)
    as (o & Ho & Hload & _).
  unfold mbind at 1 2, Run_bind at 1 2. rewrite Hload. cbn [print fst snd].
  case_decide as Hnone.
  - eexists. split; [|reflexivity].
    apply prints_only_app; [by repeat constructor|].
    apply prints_only_app; [done|by repeat constructor].
  - destruct (plot_routes_on_map_missing (files_of (fs directory)))
      as [line Hplot].
    { unfold files_of. simpl.
      destruct Hmissing as [Hm|[Hm|Hm]]; apply frame_of_not_loaded in Hm;
        auto. }
    unfold mbind, Run_bind. rewrite Hplot. cbn [print fst snd].
    eexists. split; [|reflexivity].
    apply prints_only_app; [by repeat constructor|].
    apply prints_only_app; [done|by repeat constructor].
Qed.


(** C6. The feed [feeds/C] lacks [routes.txt] and the loader marks it
    incomplete, yet the loop does not skip it, against the comment on
    its guard (skip if the directory is missing required files): [not
    gtfs_data] holds of the empty dict only, so the map is drawn and
    saved. *)
Lemma incomplete_feed_rendered :
  loaded (routes_file (sample_fs "feeds/C")) = false
  ∧ analyze_gtfs_feeds sample_fs ["feeds/C"]
    = ([Print "Processing GTFS feed in directory feeds/C...";
        Print "Warning: routes.txt not found in feeds/C";
        Print "Warning: Missing some GTFS files in feeds/C";
        Save "routes_map_C.html" frequent_map;
        Print "Map saved as 'routes_map_C.html'."],
       inr tt).
Proof. split; reflexivity. Qed.

(** What the guards of the renderer do achieve. A feed directory in which
    not all four tables are present and parsed is marked incomplete by
    the loader; when [trips], [stop_times] or [stops] is among the
    missing ones, the loop body for that feed ends without an exception
    and saves no map artifact. *)
Theorem incomplete_feed_no_artifact `{!SeriesMean} fs directory :
  (loaded (trips_file (fs directory)) = false
   ∨ loaded (stop_times_file (fs directory)) = false
   ∨ loaded (routes_file (fs directory)) = false
   ∨ loaded (stops_file (fs directory)) = false →
   ∃ out files,
     load_gtfs_from_directory fs directory = (out, inr files)
     ∧ Print ("Warning: Missing some GTFS files in " +:+ directory) ∈ out)
  ∧ (loaded (trips_file (fs directory)) = false
     ∨ loaded (stop_times_file (fs directory)) = false
     ∨ loaded (stops_file (fs directory)) = false →
     ∃ out,
       process_feed fs directory = (out, inr tt)
       ∧ ∀ filename map_obj, Save filename map_obj ∉ out).
Proof.
  split.
  - intros Hmissing%len_files_missing.
    destruct (load_gtfs_from_directory_spec fs directory)
      as (out & _ & Hload & Hwarn).
    exists out, (files_of (fs directory)). split; [done|by apply Hwarn].
  - intros Hmissing.
    destruct (process_feed_no_map fs directory Hmissing) as (out & Hout & Hrun).
    exists out. split; [done|]. intros filename map_obj.
    by apply prints_only_no_save.
Qed.

Lemma incomplete_feed_no_artifact_witness :
  (∃ out files,
     load_gtfs_from_directory sample_fs "feeds/A" = (out, inr files)
     ∧ Print "Warning: Missing some GTFS files in feeds/A" ∈ out)
  ∧ (∃ out,
       process_feed sample_fs "feeds/A" = (out, inr tt)
       ∧ ∀ filename map_obj, Save filename map_obj ∉ out).
Proof.
  split.
  - apply (proj1 (incomplete_feed_no_artifact sample_fs "feeds/A")).
    right. right. right. reflexivity.
  - apply (proj2 (incomplete_feed_no_artifact sample_fs "feeds/A")).
    right. right. reflexivity.
Defined.

(** The means of the two sample stops, whatever the library rounds. *)
Lemma mean_two_stops `{!SeriesMean} :
  ∃ lat lon,
    mean (stop_lat <$> stops_rows two_stops) = Some lat
    ∧ mean (stop_lon <$> stops_rows two_stops) = Some lon
    ∧ Qeq lat (10 # 1) ∧ Qeq lon (41 # 2).
Proof.
  destruct (mean_exact (stop_lat <$> stops_rows two_stops) [10; 10]%Z 20)
    as (lat & Hlat & Hlat');
    [reflexivity|done|repeat constructor; by compute|by compute
    |reflexivity|].
  destruct (mean_exact (stop_lon <$> stops_rows two_stops) [20; 21]%Z 41)
    as (lon & Hlon & Hlon');
    [reflexivity|done|repeat constructor; by compute|by compute
    |reflexivity|].
  exists lat, lon. do 2 (split; [done|]). split; [|done].
  by rewrite Hlat'.
Qed.

(** C8. When the renderer's preconditions hold, the map is centred on the
    mean latitude and the mean longitude of the rows of [stops], as
    [Series.mean()] gives them, whatever [trips] and [stop_times] hold.
    For stops S1 at (10, 20) and S2 at (10, 21) alone the centre is
    (10, 20.5). *)
Theorem map_centred_on_mean_stop `{!SeriesMean} :
  (∀ gtfs_files stops_df trips_df stop_times_df lat lon,
     stops_txt gtfs_files = Some stops_df →
     "stop_lat" ∈ stops_columns stops_df →
     "stop_lon" ∈ stops_columns stops_df →
     trips_txt gtfs_files = Some trips_df →
     stop_times_txt gtfs_files = Some stop_times_df →
     mean (stop_lat <$> stops_rows stops_df) = Some lat →
     mean (stop_lon <$> stops_rows stops_df) = Some lon →
     ∃ out map_obj,
       plot_routes_on_map gtfs_files = (out, inr (Some map_obj))
       ∧ location map_obj = (lat, lon))
  ∧ (∀ trips_df stop_times_df routes,
       ∃ out map_obj,
         plot_routes_on_map
           {| trips_txt := Some trips_df;
              stop_times_txt := Some stop_times_df;
              routes_txt := routes;
              stops_txt := Some two_stops |}
         = (out, inr (Some map_obj))
         ∧ Qeq (location map_obj).1 (10 # 1)
         ∧ Qeq (location map_obj).2 (41 # 2)).
Proof.
  split.
  - intros gtfs_files stops_df trips_df stop_times_df lat lon
      Hstops Hlat Hlon Htrips Hst Hmlat Hmlon.
    destruct (plot_routes_on_map_drawn gtfs_files stops_df trips_df
                stop_times_df lat lon)
      as (out & m & Hrun & _ & Hloc & _); [done..|].
    by exists out, m.
  - intros trips_df stop_times_df routes.
    destruct mean_two_stops as (lat & lon & Hlat & Hlon & Hlat' & Hlon').
    destruct (plot_routes_on_map_drawn
                {| trips_txt := Some trips_df;
                   stop_times_txt := Some stop_times_df;
                   routes_txt := routes;
                   stops_txt := Some two_stops |}
                two_stops trips_df stop_times_df lat lon)
      as (out & m & Hrun & _ & Hloc & _); try done.
    + vm_compute. right. left.
    + vm_compute. do 2 right. left.
    + exists out, m. split; [done|]. by rewrite Hloc.
Qed.

Lemma map_centred_on_mean_stop_witness :
  ∃ out map_obj,
    plot_routes_on_map frequent_files = (out, inr (Some map_obj))
    ∧ location map_obj = ((20 # 2)%Q, (41 # 2)%Q).
Proof.
  apply (proj1 map_centred_on_mean_stop frequent_files two_stops
           frequent_trips frequent_stop_times).
  - reflexivity.
  - vm_compute. right. left.
  - vm_compute. right. right. left.
  - reflexivity.
  - reflexivity.
  - reflexivity.
  - reflexivity.
Defined.

(** * Further properties *)

(** ** The loader *)

Lemma load_file_parsed {A} directory file_name (file : FileState A) :
  loaded file = true →
  load_file directory file_name file = ([], inr (frame_of file)).
Proof. by destruct file. Qed.

(** X1. The loader never raises and returns the tables that parsed; it
    prints the incompleteness warning exactly when a table is missing, and
    prints nothing at all exactly when all four tables parsed. *)
Theorem load_gtfs_from_directory_outcome fs directory :
  ∃ out,
    load_gtfs_from_directory fs directory
    = (out, inr (files_of (fs directory)))
    ∧ prints_only out
    ∧ (Print ("Warning: Missing some GTFS files in " +:+ directory) ∈ out
       ↔ len_files (files_of (fs directory)) ≠ 4)
    ∧ (out = [] ↔ len_files (files_of (fs directory)) = 4).
Proof.
  destruct (load_gtfs_from_directory_spec fs directory)
    as (out & Hout & Hload & Hwarn).
  exists out. split; [done|]. split; [done|].
  destruct (decide (len_files (files_of (fs directory)) = 4)) as [Hall|Hnot].
  - assert (out = []) as ->.
    { assert (loaded (trips_file (fs directory)) = true
              ∧ loaded (stop_times_file (fs directory)) = true
              ∧ loaded (routes_file (fs directory)) = true
              ∧ loaded (stops_file (fs directory)) = true)
        as (H1 & H2 & H3 & H4).
      { revert Hall. unfold len_files, files_of. simpl.
        destruct (trips_file _), (stop_times_file _), (routes_file _),
          (stops_file _); simpl; intros; repeat split; done || lia. }
      revert Hload. unfold load_gtfs_from_directory.
      rewrite !load_file_parsed by done.
      unfold mbind, Run_bind. cbn [fst snd].
      fold (files_of (fs directory)).
      rewrite decide_False by (intros Hne; by apply Hne).
      cbn [fst snd]. simpl. congruence. }
    split; [|done]. split; [by intros ?%elem_of_nil|done].
  - split; [split; [done|by intros; apply Hwarn]|].
    split; [|done]. intros ->.
    by apply Hwarn, elem_of_nil in Hnot.
Qed.

(** ** [os.path.basename] *)

Lemma contains_slash_app p q :
  contains_slash (p +:+ q) = contains_slash p || contains_slash q.
Proof.
  induction p as [|c p IH]; [done|]. simpl. rewrite IH.
  by rewrite orb_assoc.
Qed.

Lemma basename_no_slash p : contains_slash p = false → basename p = p.
Proof.
  destruct p as [|c p]; [done|]. simpl.
  intros [Hc Hp]%orb_false_iff. by rewrite Hp, Hc.
Qed.

Lemma basename_app_slash p n :
  contains_slash n = false → basename (p +:+ "/" +:+ n) = n.
Proof.
  intros Hn. induction p as [|c p IH].
  - change ("" +:+ "/" +:+ n) with (String "/" n).
    cbn [basename]. by rewrite Hn.
  - change (String c p +:+ "/" +:+ n) with (String c (p +:+ "/" +:+ n)).
    cbn [basename]. rewrite IH.
    by rewrite contains_slash_app, orb_true_r.
Qed.

(** X2. [basename] returns what follows the last slash: a name without
    slash is returned as it is, the result holds no slash, the directory
    part is dropped, and a trailing slash leaves the empty name. Two
    directories with the same last component thus share one map file
    name. *)
Theorem basename_last_component :
  (∀ p, contains_slash p = false → basename p = p)
  ∧ (∀ p, contains_slash (basename p) = false)
  ∧ (∀ p n, contains_slash n = false → basename (p +:+ "/" +:+ n) = n)
  ∧ (∀ p, basename (p +:+ "/") = "")
  ∧ (∀ p q n, contains_slash n = false →
       map_filename (p +:+ "/" +:+ n) = map_filename (q +:+ "/" +:+ n)).
Proof.
  split; [apply basename_no_slash|]. split; [|split; [|split]].
  - induction p as [|c p IH]; [done|]. cbn [basename].
    destruct (contains_slash p) eqn:Hp; [done|].
    destruct (Ascii.eqb c "/") eqn:Hc; [done|].
    simpl. by rewrite Hc, Hp.
  - apply basename_app_slash.
  - intros p. by apply (basename_app_slash p "").
  - intros p q n Hn. unfold map_filename.
    by rewrite !basename_app_slash.
Qed.

Lemma basename_last_component_witness :
  basename "samtrans" = "samtrans"
  ∧ basename ("feeds" +:+ "/" +:+ "samtrans") = "samtrans".
Proof.
  split.
  - apply (proj1 basename_last_component "samtrans"). reflexivity.
  - apply (proj1 (proj2 (proj2 basename_last_component)) "feeds" "samtrans").
    reflexivity.
Defined.

(** ** More on the left join *)

Lemma matched_rows {L R O} (right : list R) (on_left : L → string)
    (on_right : R → string) (row : L → option R → O) l :
  Forall (λ o, ∃ r, o = row l r) (matched right on_left on_right row l).
Proof.
  unfold matched. destruct (filter _ right) as [|r rs].
  - repeat constructor. by exists None.
  - apply Forall_fmap, Forall_forall. intros r' _. by exists (Some r').
Qed.

Lemma length_matched {L R O} (right : list R) (on_left : L → string)
    (on_right : R → string) (row : L → option R → O) l :
  length (matched right on_left on_right row l)
  = length (filter (λ r, on_right r = on_left l) right) `max` 1.
Proof.
  unfold matched. destruct (filter _ right) as [|r rs]; [done|].
  rewrite length_fmap. simpl. lia.
Qed.

(** Filtering the join by a property of the left row filters the left
    table. *)
Lemma filter_merge_left_pred {L R O} (left : list L) (right : list R)
    (on_left : L → string) (on_right : R → string) (row : L → option R → O)
    (P : O → Prop) (Q : L → Prop)
    `{!∀ o, Decision (P o), !∀ l, Decision (Q l)} :
  (∀ l r, P (row l r) ↔ Q l) →
  filter P (merge_left left right on_left on_right row)
  = merge_left (filter Q left) right on_left on_right row.
Proof.
  intros HPQ. induction left as [|l left IH]; [done|].
  rewrite merge_left_cons, filter_app, IH, filter_cons.
  pose proof (matched_rows right on_left on_right row l) as Hrows.
  case_decide as HQ.
  - rewrite merge_left_cons. f_equal. apply filter_all.
    eapply Forall_impl; [done|]. intros o [r ->]. by apply HPQ.
  - rewrite filter_none; [done|].
    eapply Forall_impl; [done|]. intros o [r ->]. by rewrite HPQ.
Qed.

(** Where the rows of the join come from. *)
Lemma elem_of_merge_left {L R O} (left : list L) (right : list R)
    (on_left : L → string) (on_right : R → string) (row : L → option R → O)
    o :
  o ∈ merge_left left right on_left on_right row
  ↔ ∃ l, l ∈ left
         ∧ (((on_left l ∉ on_right <$> right) ∧ o = row l None)
            ∨ (∃ r, r ∈ right ∧ on_right r = on_left l
                    ∧ o = row l (Some r))).
Proof.
  unfold merge_left. rewrite list_elem_of_bind.
  split; intros (l & H1 & H2); exists l.
  - split; [done|]. unfold matched in H1.
    destruct (filter _ right) as [|r rs] eqn:Hf.
    + apply list_elem_of_singleton in H1 as ->. left. split; [|done].
      intros (r & Heq & Hr)%list_elem_of_fmap. symmetry in Heq.
      by apply (filter_nil_not_elem_of _ _ _ Hf Heq).
    + apply list_elem_of_fmap in H1 as (r' & -> & Hr').
      rewrite <-Hf in Hr'. apply list_elem_of_filter in Hr' as [? ?].
      right. by exists r'.
  - split; [|done]. unfold matched.
    destruct H2 as [[Hnone ->]|(r & Hr & Hkey & ->)].
    + rewrite filter_none; [left|]. apply Forall_forall.
      intros r Hr Heq. apply Hnone, list_elem_of_fmap. by exists r.
    + assert (r ∈ filter (λ r, on_right r = on_left l) right) as Hin
        by (by apply list_elem_of_filter).
      destruct (filter _ right) as [|r0 rs]; [by apply elem_of_nil in Hin|].
      apply list_elem_of_fmap. by exists r.
Qed.

Lemma length_filter_merge_left {L R O} (left : list L) (right : list R)
    (on_left : L → string) (on_right : R → string) (row : L → option R → O)
    (key : O → string) t :
  (∀ l r, key (row l r) = on_left l) →
  length (filter (λ o, key o = t)
            (merge_left left right on_left on_right row))
  = length (filter (λ l, on_left l = t) left)
    * (length (filter (λ r, on_right r = t) right) `max` 1).
Proof.
  intros Hkey. rewrite (filter_merge_left _ _ _ _ _ Hkey).
  induction left as [|l left IH]; [done|]. rewrite filter_cons.
  case_decide as Ht; [|done].
  rewrite merge_left_cons, length_app, IH, length_matched, Ht. simpl. lia.
Qed.

Lemma length_filter_NoDup_fmap {A} (f : A → string * Z) (l : list A) k :
  NoDup (f <$> l) → length (filter (λ x, f x = k) l) ≤ 1.
Proof.
  induction l as [|x l IH]; [simpl; lia|].
  rewrite fmap_cons, NoDup_cons, filter_cons. intros [Hx Hl].
  case_decide as Hk; [|by apply IH].
  rewrite filter_none; [simpl; lia|]. apply Forall_forall.
  intros y Hy Hyk. apply Hx, list_elem_of_fmap. exists y.
  split; [congruence|done].
Qed.

Lemma Permutation_short_eq {A} (l l' : list A) :
  l' ≡ₚ l → length l ≤ 1 → l' = l.
Proof.
  intros Hp Hlen. destruct l as [|x [|y l]]; [| |simpl in Hlen; lia].
  - by apply Permutation_nil_r.
  - by apply Permutation_singleton_r.
Qed.

(** ** More on [extract_segments] *)

(** X3. The count of every tuple is the number of trips whose ordered
    stop_id tuple it is; a tuple of no trip is not a key. *)
Theorem segment_count_is_trip_count gtfs_files trips stop_times routes s :
  trips_txt gtfs_files = Some trips →
  stop_times_txt gtfs_files = Some stop_times →
  routes_txt gtfs_files = Some routes →
  ∃ segments,
    extract_segments gtfs_files = ([], inr segments)
    ∧ segments !! s
      = let n :=
          length
            (filter
               (λ t, ordered_stop_ids (joined_trip_stops stop_times trips) t
                     = s)
               (elements (distinct (st_trip_id <$> stop_times)))) in
        if decide (n = 0) then None else Some n.
Proof.
  intros Ht Hs Hr. eexists.
  split; [by apply (extract_segments_loaded _ trips stop_times routes)|].
  set (df := trip_stop_times stop_times trips).
  assert (length
            (filter
               (λ t, ordered_stop_ids (joined_trip_stops stop_times trips) t
                     = s)
               (elements (distinct (st_trip_id <$> stop_times))))
          = length (filter (λ t, trip_segment df t = s)
                      (trip_keys ts_trip_id df))) as ->.
  { rewrite <-(trip_keys_distinct stop_times trips). fold df. f_equal.
    apply list_filter_iff. intros t. unfold df.
    by rewrite trip_segment_ordered. }
  rewrite lookup_count_segments. simpl. case_decide as Hin.
  - apply list_elem_of_fmap in Hin as (t & -> & Hkey).
    pose proof (length_filter_elem_of
                  (λ t', trip_segment df t' = trip_segment df t)
                  _ t Hkey eq_refl) as Hlen.
    destruct (length _); [lia|done].
  - rewrite filter_none; [done|]. apply Forall_forall.
    intros t Hkey Heq. apply Hin, list_elem_of_fmap. by exists t.
Qed.

Lemma segment_count_is_trip_count_witness :
  ∃ segments,
    extract_segments (table_set shared_trips shared_stop_times two_routes)
    = ([], inr segments)
    ∧ segments !! ["A"; "B"] = Some 2
    ∧ segments !! ["B"; "A"] = None.
Proof.
  destruct (segment_count_is_trip_count
              (table_set shared_trips shared_stop_times two_routes)
              shared_trips shared_stop_times two_routes ["A"; "B"]
              eq_refl eq_refl eq_refl) as (segments & Hrun & Hab).
  destruct (segment_count_is_trip_count
              (table_set shared_trips shared_stop_times two_routes)
              shared_trips shared_stop_times two_routes ["B"; "A"]
              eq_refl eq_refl eq_refl) as (segments' & Hrun' & Hba).
  exists segments. split; [exact Hrun|]. split; [exact Hab|].
  rewrite Hrun in Hrun'. injection Hrun' as ->. exact Hba.
Defined.

Lemma trip_segment_drop_route df t :
  trip_segment (drop_route <$> df) t = trip_segment df t.
Proof.
  unfold trip_segment. by rewrite filter_fmap, <-list_fmap_compose.
Qed.

(** X4. When the [trip_id]s of [trips] are unique, the segment of every
    trip is the [stop_id]s of its [stop_times] rows by ascending
    [stop_sequence], ties in row order, and the [trips] table has no
    influence on the result: an empty [trips] table gives the same
    counts. *)
Theorem unique_trips_segments_from_stop_times gtfs_files trips stop_times
    routes :
  trips_txt gtfs_files = Some trips →
  stop_times_txt gtfs_files = Some stop_times →
  routes_txt gtfs_files = Some routes →
  NoDup (trip_id <$> trips) →
  (∀ t, trip_segment (trip_stop_times stop_times trips) t
        = stop_times_segment stop_times t)
  ∧ extract_segments (with_trips gtfs_files [])
    = extract_segments gtfs_files.
Proof.
  intros Ht Hs Hr Hnd. split.
  - intros t. unfold trip_stop_times.
    rewrite <-trip_segment_drop_route.
    rewrite (sort_values_fmap drop_route ts_trip_id ts_stop_sequence
               ts_trip_id ts_stop_sequence) by done.
    rewrite (joined_trip_stops_unique _ _ Hnd).
    change (λ st, {| ts_trip_id := st_trip_id st;
                     ts_stop_sequence := st_stop_sequence st;
                     ts_stop_id := st_stop_id st;
                     ts_route_id := None |}) with unrouted.
    rewrite <-(sort_values_fmap unrouted st_trip_id st_stop_sequence)
      by done.
    unfold trip_segment, stop_times_segment.
    rewrite filter_fmap, <-list_fmap_compose. simpl.
    by rewrite sort_values_trip.
  - rewrite (extract_segments_loaded _ [] stop_times routes) by done.
    rewrite (extract_segments_loaded _ trips stop_times routes) by done.
    unfold trip_stop_times.
    rewrite <-(count_segments_drop_route (joined_trip_stops _ [])).
    rewrite <-(count_segments_drop_route (joined_trip_stops _ trips)).
    rewrite (joined_trip_stops_unique _ _ Hnd).
    by rewrite (joined_trip_stops_unique _ [] (NoDup_nil_2)).
Qed.

Lemma unique_trips_segments_from_stop_times_witness :
  (∀ t, trip_segment
          (trip_stop_times unordered_stop_times [trip_row "T1" "R1"]) t
        = stop_times_segment unordered_stop_times t)
  ∧ extract_segments
      (with_trips
         (table_set [trip_row "T1" "R1"] unordered_stop_times two_routes) [])
    = extract_segments
        (table_set [trip_row "T1" "R1"] unordered_stop_times two_routes).
Proof.
  apply (unique_trips_segments_from_stop_times
           (table_set [trip_row "T1" "R1"] unordered_stop_times two_routes)
           [trip_row "T1" "R1"] unordered_stop_times two_routes).
  - reflexivity.
  - reflexivity.
  - reflexivity.
  - vm_compute. apply NoDup_singleton.
Defined.

(** X5. A [trip_id] listed several times in [trips] repeats the stops of
    its segment: the segment of a trip has one entry for every pair of a
    [stop_times] row and a [trips] row of that trip, and one per
    [stop_times] row when [trips] does not list the trip. *)
Theorem duplicate_trip_rows_repeat_stops stop_times trips t :
  length (trip_segment (trip_stop_times stop_times trips) t)
  = length (filter (λ r, st_trip_id r = t) stop_times)
    * (length (filter (λ r, trip_id r = t) trips) `max` 1).
Proof.
  unfold trip_segment, trip_stop_times. rewrite length_fmap.
  rewrite sort_values_Permutation. unfold joined_trip_stops.
  by rewrite (length_filter_merge_left _ _ _ _ _ ts_trip_id).
Qed.

(** X6. The result is the empty counter exactly when [stop_times] has no
    row. *)
Theorem no_segments_iff_no_stop_times gtfs_files trips stop_times routes :
  trips_txt gtfs_files = Some trips →
  stop_times_txt gtfs_files = Some stop_times →
  routes_txt gtfs_files = Some routes →
  ∃ segments,
    extract_segments gtfs_files = ([], inr segments)
    ∧ (segments = ∅ ↔ stop_times = []).
Proof.
  intros Ht Hs Hr. eexists.
  split; [by apply (extract_segments_loaded _ trips stop_times routes)|].
  split.
  - intros Hempty. destruct stop_times as [|st sts]; [done|]. exfalso.
    assert (st_trip_id st ∈ trip_keys ts_trip_id
                               (trip_stop_times (st :: sts) trips)) as Hkey
      by (apply elem_of_trip_stop_times_keys; left).
    destruct (lookup_count_segments_trip _ _ Hkey) as [n Hn].
    by rewrite Hempty, lookup_empty in Hn.
  - by intros ->.
Qed.

Lemma no_segments_iff_no_stop_times_witness :
  ∃ segments,
    extract_segments lone_trip_files = ([], inr segments)
    ∧ (segments = ∅ ↔ ([] : list StopTimeRow) = []).
Proof.
  apply (no_segments_iff_no_stop_times lone_trip_files
           [trip_row "T1" "R1"] [] two_routes); reflexivity.
Defined.

Lemma drop_route_joined_Permutation stop_times trips trips' :
  trips' ≡ₚ trips →
  drop_route <$> joined_trip_stops stop_times trips'
  = drop_route <$> joined_trip_stops stop_times trips.
Proof.
  intros Hp. induction stop_times as [|st sts IH]; [done|].
  unfold joined_trip_stops in *.
  rewrite !merge_left_cons, !fmap_app, IH, !drop_route_matched.
  by rewrite Hp.
Qed.

(** X7. The order of the rows of [trips] is irrelevant: any permutation of
    the [trips] table gives the same counts. *)
Theorem extract_segments_trips_order gtfs_files trips stop_times routes
    trips' :
  trips_txt gtfs_files = Some trips →
  stop_times_txt gtfs_files = Some stop_times →
  routes_txt gtfs_files = Some routes →
  trips' ≡ₚ trips →
  extract_segments (with_trips gtfs_files trips')
  = extract_segments gtfs_files.
Proof.
  intros Ht Hs Hr Hp.
  rewrite (extract_segments_loaded _ trips' stop_times routes) by done.
  rewrite (extract_segments_loaded _ trips stop_times routes) by done.
  unfold trip_stop_times.
  rewrite <-(count_segments_drop_route (joined_trip_stops _ trips')).
  rewrite <-(count_segments_drop_route (joined_trip_stops _ trips)).
  by rewrite (drop_route_joined_Permutation _ _ _ Hp).
Qed.

Lemma extract_segments_trips_order_witness :
  extract_segments
    (with_trips (table_set shared_trips shared_stop_times two_routes)
       [trip_row "T2" "R2"; trip_row "T1" "R1"])
  = extract_segments (table_set shared_trips shared_stop_times two_routes).
Proof.
  apply (extract_segments_trips_order
           (table_set shared_trips shared_stop_times two_routes)
           shared_trips shared_stop_times two_routes
           [trip_row "T2" "R2"; trip_row "T1" "R1"]).
  - reflexivity.
  - reflexivity.
  - reflexivity.
  - apply perm_swap.
Defined.

(** X8. When no two [stop_times] rows share both [trip_id] and
    [stop_sequence], the order of the [stop_times] rows is irrelevant
    altogether: any permutation of them gives the same counts. *)
Theorem extract_segments_any_row_order gtfs_files trips stop_times routes
    stop_times' :
  trips_txt gtfs_files = Some trips →
  stop_times_txt gtfs_files = Some stop_times →
  routes_txt gtfs_files = Some routes →
  NoDup ((λ r, (st_trip_id r, st_stop_sequence r)) <$> stop_times) →
  stop_times' ≡ₚ stop_times →
  extract_segments (with_stop_times gtfs_files stop_times')
  = extract_segments gtfs_files.
Proof.
  intros Ht Hs Hr Hnd Hp.
  rewrite (extract_segments_loaded _ trips stop_times' routes) by done.
  rewrite (extract_segments_loaded _ trips stop_times routes) by done.
  assert (trip_stop_times stop_times' trips = trip_stop_times stop_times trips)
    as ->; [|done].
  unfold trip_stop_times.
  apply (stable_sorted_unique
           (by_trip_id_stop_sequence ts_trip_id ts_stop_sequence));
    [apply Sorted_sort_values..|].
  intros a. unfold sort_values. rewrite !stable_sort_stable by apply _.
  unfold joined_trip_stops.
  rewrite !(filter_merge_left_pred _ _ _ _ _ _
              (λ r, (st_trip_id r, st_stop_sequence r)
                    = (ts_trip_id a, ts_stop_sequence a)))
    by (intros l r; rewrite tied_by_trip_id_stop_sequence; simpl;
        split; [by intros [-> ->]|by intros [= -> ->]]).
  f_equal. apply Permutation_short_eq; [by rewrite Hp|].
  by apply (length_filter_NoDup_fmap
              (λ r, (st_trip_id r, st_stop_sequence r))).
Qed.

Lemma extract_segments_any_row_order_witness :
  extract_segments
    (with_stop_times
       (table_set [trip_row "T1" "R1"] unordered_stop_times two_routes)
       [stop_time_row "T1" 1 "B"; stop_time_row "T1" 3 "A";
        stop_time_row "T1" 2 "C"])
  = extract_segments
      (table_set [trip_row "T1" "R1"] unordered_stop_times two_routes).
Proof.
  apply (extract_segments_any_row_order
           (table_set [trip_row "T1" "R1"] unordered_stop_times two_routes)
           [trip_row "T1" "R1"] unordered_stop_times two_routes).
  - reflexivity.
  - reflexivity.
  - reflexivity.
  - vm_compute. repeat constructor.
    + intros Hin.
      repeat (apply elem_of_cons in Hin as [Hin|Hin]; [discriminate Hin|]).
      by apply elem_of_nil in Hin.
    + intros Hin.
      repeat (apply elem_of_cons in Hin as [Hin|Hin]; [discriminate Hin|]).
      by apply elem_of_nil in Hin.
    + intros Hin. by apply elem_of_nil in Hin.
  - unfold unordered_stop_times. apply perm_swap.
Defined.

Lemma size_le_total_count (segments : gmap (list string) nat) :
  (∀ s n, segments !! s = Some n → 1 ≤ n) →
  size segments ≤ total_count segments.
Proof.
  induction segments as [|s n segments Hs IH] using map_ind.
  - intros _. rewrite map_size_empty. lia.
  - intros Hpos. rewrite map_size_insert_None, total_count_insert by done.
    assert (1 ≤ n) by (apply (Hpos s); by rewrite lookup_insert_eq).
    assert (size segments ≤ total_count segments).
    { apply IH. intros s' n' Hs'. apply (Hpos s').
      rewrite lookup_insert_ne; [done|]. intros ->. congruence. }
    lia.
Qed.

(** X9. Every count in the result is at least 1 and at most the number of
    distinct [trip_id]s of [stop_times], and there are at most that many
    distinct segments. *)
Theorem segment_counts_bounds gtfs_files trips stop_times routes :
  trips_txt gtfs_files = Some trips →
  stop_times_txt gtfs_files = Some stop_times →
  routes_txt gtfs_files = Some routes →
  ∃ segments,
    extract_segments gtfs_files = ([], inr segments)
    ∧ (∀ s n, segments !! s = Some n →
         1 ≤ n ≤ size (distinct (st_trip_id <$> stop_times)))
    ∧ size segments ≤ size (distinct (st_trip_id <$> stop_times)).
Proof.
  intros Ht Hs Hr. eexists.
  split; [by apply (extract_segments_loaded _ trips stop_times routes)|].
  set (df := trip_stop_times stop_times trips).
  assert (size (distinct (st_trip_id <$> stop_times))
          = length (trip_keys ts_trip_id df)) as ->.
  { unfold df. by rewrite (trip_keys_distinct stop_times trips). }
  assert (∀ s n, count_segments (groupby ts_trip_id df) !! s = Some n →
                 1 ≤ n ≤ length (trip_keys ts_trip_id df)) as Hbounds.
  { intros s n. rewrite lookup_count_segments.
    case_decide as Hin; [|done]. intros [= <-]. split; [|apply length_filter].
    apply list_elem_of_fmap in Hin as (t & -> & Hkey).
    by apply (length_filter_elem_of _ _ t). }
  split; [done|].
  etrans; [apply size_le_total_count; intros s n Hn; by apply (Hbounds s)|].
  rewrite count_segments_groupby, total_count_foldl_increment, length_fmap.
  unfold total_count. rewrite map_fold_empty. lia.
Qed.

Lemma segment_counts_bounds_witness :
  ∃ segments,
    extract_segments (table_set shared_trips shared_stop_times two_routes)
    = ([], inr segments)
    ∧ (∀ s n, segments !! s = Some n →
         1 ≤ n ≤ size (distinct (st_trip_id <$> shared_stop_times)))
    ∧ size segments ≤ size (distinct (st_trip_id <$> shared_stop_times)).
Proof.
  apply (segment_counts_bounds
           (table_set shared_trips shared_stop_times two_routes)
           shared_trips shared_stop_times two_routes); reflexivity.
Defined.

(** ** More on sorting and grouping *)

Section grouping.
Context {A : Type} (tid : A → string).

#[global] Instance by_trip_id_total : Total (by_trip_id tid).
Proof. intros r1 r2. unfold by_trip_id. apply (total String.le). Qed.

#[global] Instance by_trip_id_trans : Transitive (by_trip_id tid).
Proof. intros r1 r2 r3. unfold by_trip_id. apply transitivity. Qed.

Lemma tied_by_trip_id a x : tied (by_trip_id tid) a x ↔ tid x = tid a.
Proof.
  unfold tied, by_trip_id. split.
  - intros [H1 H2]. by apply (anti_symm String.le).
  - intros ->. split; reflexivity.
Qed.

Lemma StronglySorted_same_trip k (l : list A) :
  Forall (λ r, tid r = k) l → StronglySorted (by_trip_id tid) l.
Proof.
  induction 1 as [|x l Hx Hl IH]; constructor; [done|].
  eapply Forall_impl; [done|]. intros y Hy. unfold by_trip_id.
  by rewrite Hx, Hy.
Qed.

Lemma Forall_filter_trip k (df : list A) :
  Forall (λ r, tid r = k) (filter (λ r, tid r = k) df).
Proof. apply Forall_forall. by intros r [? _]%list_elem_of_filter. Qed.

Lemma StronglySorted_groups (ks : list string) (df : list A) :
  StronglySorted String.le ks →
  StronglySorted (by_trip_id tid) (ks ≫= λ k, filter (λ r, tid r = k) df).
Proof.
  induction 1 as [|k ks Hks IH Hk]; [constructor|].
  rewrite bind_cons. apply StronglySorted_app. split; [|split].
  - intros x1 x2 [Hx1 _]%list_elem_of_filter
      (k' & [Hx2 _]%list_elem_of_filter & Hk')%list_elem_of_bind.
    unfold by_trip_id. rewrite Hx1, Hx2. by eapply Forall_forall in Hk.
  - eapply StronglySorted_same_trip, Forall_filter_trip.
  - exact IH.
Qed.

Lemma filter_groups (ks : list string) (df : list A) t :
  NoDup ks →
  filter (λ r, tid r = t) (ks ≫= λ k, filter (λ r, tid r = k) df)
  = if decide (t ∈ ks) then filter (λ r, tid r = t) df else [].
Proof.
  induction 1 as [|k ks Hk Hnd IH].
  { by rewrite decide_False by apply not_elem_of_nil. }
  rewrite bind_cons, filter_app, IH, list_filter_filter.
  destruct (decide (k = t)) as [->|Hkt].
  - rewrite (decide_True (P := t ∈ t :: ks)) by left.
    rewrite decide_False by done. rewrite app_nil_r.
    apply list_filter_iff. tauto.
  - rewrite filter_none by (apply Forall_forall; intros r _ [? ?]; congruence).
    simpl. case_decide as Hin.
    + by rewrite decide_True by (by right).
    + rewrite decide_False; [done|]. by intros [->|?]%elem_of_cons.
Qed.

Lemma groupby_rows (df : list A) :
  mjoin ((groupby tid df).*2)
  = trip_keys tid df ≫= λ k, filter (λ r, tid r = k) df.
Proof.
  unfold groupby. rewrite <-list_fmap_compose.
  generalize (trip_keys tid df). intros ks.
  induction ks as [|k ks IH]; [done|]. csimpl. by rewrite IH.
Qed.

(** X10. The groups of [groupby] partition the table: read one after the
    other they are the table stably sorted by [trip_id], hence a
    permutation of it; on a table sorted by [trip_id] and [stop_sequence]
    they are the table itself, row for row. *)
Theorem groupby_partition (df : list A) :
  mjoin ((groupby tid df).*2) = stable_sort (by_trip_id tid) df
  ∧ mjoin ((groupby tid df).*2) ≡ₚ df
  ∧ ∀ seq, mjoin ((groupby tid (sort_values tid seq df)).*2)
           = sort_values tid seq df.
Proof.
  assert (∀ df, mjoin ((groupby tid df).*2) = stable_sort (by_trip_id tid) df)
    as Hsort.
  { clear df. intros df. rewrite groupby_rows.
    apply stable_sort_unique; [apply _..| |].
    - apply StronglySorted_Sorted, StronglySorted_groups.
      apply Sorted_StronglySorted; [apply _|]. unfold trip_keys.
      apply Sorted_stable_sort; apply _.
    - intros a.
      rewrite !(list_filter_iff (tied (by_trip_id tid) a)
                  (λ r, tid r = tid a)) by apply tied_by_trip_id.
      rewrite filter_groups by apply NoDup_trip_keys.
      case_decide as Hin; [done|]. symmetry. apply filter_none.
      apply Forall_forall. intros r Hr Heq. apply Hin, elem_of_trip_keys.
      apply list_elem_of_fmap. by exists r. }
  split; [done|]. split.
  - rewrite Hsort. apply stable_sort_Permutation.
  - intros seq. rewrite Hsort. symmetry.
    apply stable_sort_unique; [apply _..| |done].
    apply StronglySorted_Sorted.
    rewrite <-(filter_all (λ _, True) (sort_values tid seq df))
      by (by apply Forall_forall).
    eapply (StronglySorted_filter_impl (by_trip_id_stop_sequence tid seq)).
    + intros x y _ _ [[_ Hle]|[Heq _]]; unfold by_trip_id; [done|].
      by rewrite Heq.
    + apply Sorted_StronglySorted; [apply _|apply Sorted_sort_values].
Qed.

(** X11. [sort_values] returns a permutation of the table, ordered by
    [trip_id] and then [stop_sequence]; a table that is already in that
    order is returned unchanged, so sorting twice is sorting once. *)
Theorem sort_values_sorted_permutation (seq : A → Z) (df : list A) :
  sort_values tid seq df ≡ₚ df
  ∧ Sorted (by_trip_id_stop_sequence tid seq) (sort_values tid seq df)
  ∧ (Sorted (by_trip_id_stop_sequence tid seq) df →
     sort_values tid seq df = df)
  ∧ sort_values tid seq (sort_values tid seq df) = sort_values tid seq df.
Proof.
  assert (∀ l, Sorted (by_trip_id_stop_sequence tid seq) l →
               sort_values tid seq l = l) as Hfix.
  { intros l Hl. symmetry. by apply stable_sort_unique; [apply _..| |]. }
  split; [apply sort_values_Permutation|].
  split; [apply Sorted_sort_values|]. split; [apply Hfix|].
  apply Hfix, Sorted_sort_values.
Qed.

End grouping.

Lemma sort_values_sorted_permutation_witness :
  sort_values ts_trip_id ts_stop_sequence
    (trip_stop_times shared_stop_times shared_trips)
  = trip_stop_times shared_stop_times shared_trips.
Proof.
  apply (proj1 (proj2 (proj2 (sort_values_sorted_permutation
                                ts_trip_id ts_stop_sequence
                                (trip_stop_times shared_stop_times
                                   shared_trips))))).
  apply Sorted_sort_values.
Defined.

(** ** More on [plot_routes_on_map] *)

(** The loop over the trips, in full: a trip without coordinates is
    reported and the others are drawn, in the order of the groups. *)
Lemma plot_trips_drawn groups map_obj :
  plot_trips groups map_obj
  = ((λ g, skip_line g.1) <$> filter (λ g, coordinates_of g.2 = []) groups,
     inr {| location := location map_obj;
            zoom_start := zoom_start map_obj;
            polylines :=
              polylines map_obj
              ++ filter (λ c, c ≠ []) ((λ g, coordinates_of g.2) <$> groups)
         |}).
Proof.
  revert map_obj. induction groups as [|[trip group] groups IH];
    intros map_obj.
  { simpl. rewrite app_nil_r. by destruct map_obj. }
  cbn [plot_trips]. rewrite fmap_cons, !filter_cons. cbn [fst snd].
  destruct (coordinates_of group) as [|c cs] eqn:Hc.
  - rewrite decide_True by done. rewrite decide_False by (by intros []).
    rewrite (bind_value _ _ [skip_line trip] tt) by done.
    by rewrite IH.
  - rewrite decide_False by done. rewrite decide_True by done.
    rewrite IH. cbn [add_polyline location zoom_start polylines].
    by rewrite <-app_assoc.
Qed.

(** The three ways [plot_routes_on_map] ends. *)
Lemma plot_routes_on_map_cases `{!SeriesMean} gtfs_files :
  (¬ renderable gtfs_files
   ∧ ∃ line, plot_routes_on_map gtfs_files = ([Print line], inr None))
  ∨ (∃ stops_df trips_df stop_times_df,
       stops_txt gtfs_files = Some stops_df
       ∧ trips_txt gtfs_files = Some trips_df
       ∧ stop_times_txt gtfs_files = Some stop_times_df
       ∧ renderable gtfs_files
       ∧ ((map_center stops_df = None
           ∧ plot_routes_on_map gtfs_files
             = ([], inl (ValueError "Location values cannot contain NaNs.")))
          ∨ (∃ center,
               map_center stops_df = Some center
               ∧ let groups :=
                   groupby p_trip_id
                     (plot_trip_stop_times stop_times_df stops_df trips_df) in
                 plot_routes_on_map gtfs_files
                 = ((λ g, skip_line g.1)
                      <$> filter (λ g, coordinates_of g.2 = []) groups,
                    inr (Some
                           {| location := center; zoom_start := 12;
                              polylines :=
                                filter (λ c, c ≠ [])
                                  ((λ g, coordinates_of g.2) <$> groups)
                           |}))))).
Proof.
  unfold plot_routes_on_map, renderable.
  destruct (stops_txt gtfs_files) as [stops_df|];
    [|left; split; [by intros (? & ? & _)|by eexists]].
  case_decide as Hcols.
  { left. split; [|by eexists].
    intros (? & [= <-] & ? & ? & _). by destruct Hcols. }
  destruct (trips_txt gtfs_files) as [trips_df|];
    [|left; split; [by intros (? & _ & _ & _ & []%is_Some_None & _)
                   |by eexists]].
  destruct (stop_times_txt gtfs_files) as [stop_times_df|];
    [|left; split; [by intros (? & _ & _ & _ & _ & []%is_Some_None)
                   |by eexists]].
  right. exists stops_df, trips_df, stop_times_df.
  do 3 (split; [done|]). split.
  { exists stops_df. split; [done|].
    split; [by apply dec_stable; intros ?; apply Hcols; left|].
    split; [by apply dec_stable; intros ?; apply Hcols; right|].
    by split. }
  unfold map_center.
  destruct (mean (stop_lat <$> stops_rows stops_df)) as [lat|];
    [|by left].
  destruct (mean (stop_lon <$> stops_rows stops_df)) as [lon|];
    [|left; split; reflexivity].
  right. exists (lat, lon). split; [reflexivity|].
  unfold mbind, Run_bind. cbn [folium_Map mret Run_ret fst snd].
  rewrite plot_trips_drawn. cbn. by rewrite app_nil_r.
Qed.

Lemma elem_of_fmap_merge_left {L R O K} (left : list L) (right : list R)
    (on_left : L → string) (on_right : R → string) (row : L → option R → O)
    (g : O → K) (h : L → K) k :
  (∀ l r, g (row l r) = h l) →
  k ∈ g <$> merge_left left right on_left on_right row ↔ k ∈ h <$> left.
Proof.
  intros Hgh. split.
  - intros (o & -> & Ho)%list_elem_of_fmap.
    apply elem_of_merge_left in Ho
      as (l & Hl & [[_ ->]|(r & _ & _ & ->)]);
      rewrite Hgh; apply list_elem_of_fmap; eauto.
  - intros (l & -> & Hl)%list_elem_of_fmap.
    destruct (decide (on_left l ∈ on_right <$> right))
      as [(r & Heq & Hr)%list_elem_of_fmap|Hn].
    + apply list_elem_of_fmap. exists (row l (Some r)).
      split; [by rewrite Hgh|]. apply elem_of_merge_left.
      exists l. split; [done|]. right. by exists r.
    + apply list_elem_of_fmap. exists (row l None).
      split; [by rewrite Hgh|]. apply elem_of_merge_left.
      exists l. split; [done|]. by left.
Qed.

(** Every row of the renderer's joined table stems from a [stop_times]
    row, with the coordinates of a [stops] row of the same [stop_id] or
    with none. *)
Lemma elem_of_plot_joined stop_times_df stops_df trips_df r :
  r ∈ plot_joined stop_times_df stops_df trips_df →
  ∃ st,
    st ∈ stop_times_df
    ∧ p_trip_id r = st_trip_id st
    ∧ p_stop_id r = st_stop_id st
    ∧ ((p_stop_lat r = None ∧ p_stop_lon r = None
        ∧ st_stop_id st ∉ s_stop_id <$> stops_rows stops_df)
       ∨ (∃ s, s ∈ stops_rows stops_df
               ∧ s_stop_id s = st_stop_id st
               ∧ p_stop_lat r = stop_lat s
               ∧ p_stop_lon r = stop_lon s)).
Proof.
  unfold plot_joined. intros Hr.
  apply elem_of_merge_left in Hr as ([st s] & Hl & Hrow).
  assert (p_trip_id r = st_trip_id st ∧ p_stop_id r = st_stop_id st
          ∧ p_stop_lat r = s ≫= stop_lat ∧ p_stop_lon r = s ≫= stop_lon)
    as (Htid & Hsid & Hlat & Hlon)
    by (by destruct Hrow as [[_ ->]|(? & _ & _ & ->)]).
  clear Hrow.
  apply elem_of_merge_left in Hl
    as (st' & Hst & [[Hnone [= -> ->]]|(s' & Hs' & Hkey & [= -> ->])]).
  - exists st'. do 3 (split; [done|]). by left.
  - exists st'. do 3 (split; [done|]). right. by exists s'.
Qed.

Lemma plot_trip_keys_distinct stop_times_df stops_df trips_df :
  trip_keys p_trip_id (plot_trip_stop_times stop_times_df stops_df trips_df)
  ≡ₚ elements (distinct (st_trip_id <$> stop_times_df)).
Proof.
  apply NoDup_Permutation; [apply NoDup_trip_keys|apply NoDup_elements|].
  intros t. rewrite elem_of_trip_keys, elem_of_elements.
  unfold distinct, plot_trip_stop_times, plot_joined.
  rewrite elem_of_list_to_set, sort_values_Permutation.
  rewrite (elem_of_fmap_merge_left _ _ _ _ _ p_trip_id
             (λ r, st_trip_id r.1)) by done.
  by rewrite (elem_of_fmap_merge_left _ _ _ _ _ (λ r, st_trip_id r.1)
                st_trip_id) by done.
Qed.

(** X12. On the typed tables [plot_routes_on_map] prints and never
    saves; it returns no map exactly when one of its guards fails
    ([stops] missing, a coordinate column missing, [trips] or
    [stop_times] missing); and a map it returns is centred on the mean
    stop, has zoom 12 and holds no empty polyline. *)
Theorem plot_routes_on_map_outcome `{!SeriesMean} gtfs_files :
  prints_only (plot_routes_on_map gtfs_files).1
  ∧ ((plot_routes_on_map gtfs_files).2 = inr None
     ↔ ¬ renderable gtfs_files)
  ∧ (∀ map_obj, (plot_routes_on_map gtfs_files).2 = inr (Some map_obj) →
       ∃ stops_df,
         stops_txt gtfs_files = Some stops_df
         ∧ renderable gtfs_files
         ∧ map_center stops_df = Some (location map_obj)
         ∧ zoom_start map_obj = 12%Z
         ∧ Forall (λ line, line ≠ []) (polylines map_obj)).
Proof.
  destruct (plot_routes_on_map_cases gtfs_files)
    as [[Hnot [line ->]]
       |(stops_df & trips_df & stop_times_df & Hstops & Htrips & Hst & Hren
         & [[Hcenter ->]|(center & Hcenter & ->)])]; cbn [fst snd].
  - split; [by repeat constructor|]. by split.
  - split; [constructor|]. by split.
  - split.
    { apply Forall_fmap, Forall_forall. by intros. }
    split; [done|].
    intros map_obj [= <-]. exists stops_df. cbn.
    do 4 (split; [done|]). apply Forall_forall.
    by intros line [? _]%list_elem_of_filter.
Qed.

(** X13. When a map is returned, every trip of [stop_times] is either
    drawn as one polyline or reported: the polylines and the printed
    lines together number the distinct [trip_id]s. *)
Theorem every_trip_drawn_or_skipped `{!SeriesMean} gtfs_files stop_times_df
    out map_obj :
  stop_times_txt gtfs_files = Some stop_times_df →
  plot_routes_on_map gtfs_files = (out, inr (Some map_obj)) →
  length (polylines map_obj) + length out
  = size (distinct (st_trip_id <$> stop_times_df)).
Proof.
  intros Hst Hrun.
  destruct (plot_routes_on_map_cases gtfs_files)
    as [[_ [line Hplot]]
       |(stops_df & trips_df & stop_times_df' & _ & _ & Hst' & _
         & [[_ Hplot]|(center & _ & Hplot)])];
    rewrite Hplot in Hrun; [done..|].
  rewrite Hst in Hst'. injection Hst' as <-.
  cbn zeta in Hrun. injection Hrun as <- <-. cbn [polylines].
  rewrite filter_fmap, !length_fmap.
  set (groups := groupby p_trip_id _).
  rewrite Nat.add_comm, <-length_app.
  rewrite (filter_app_complement (λ g, coordinates_of g.2 = []) groups).
  unfold groups, groupby. rewrite length_fmap.
  by rewrite plot_trip_keys_distinct.
Qed.

Lemma every_trip_drawn_or_skipped_witness :
  length (polylines frequent_map) + length ([] : list Event)
  = size (distinct (st_trip_id <$> frequent_stop_times)).
Proof.
  apply (every_trip_drawn_or_skipped frequent_files frequent_stop_times
           [] frequent_map); reflexivity.
Defined.

Lemma elem_of_coordinates_of group point :
  point ∈ coordinates_of group
  ↔ ∃ r, r ∈ group ∧ p_stop_lat r = Some point.1
         ∧ p_stop_lon r = Some point.2.
Proof.
  unfold coordinates_of. rewrite list_elem_of_omap. split.
  - intros (r & Hr & Hpoint). exists r. split; [done|].
    destruct (p_stop_lat r), (p_stop_lon r); simplify_eq/=. done.
  - intros (r & Hr & Hlat & Hlon). exists r. split; [done|].
    rewrite Hlat, Hlon. by destruct point.
Qed.

(** X14. Every point of every polyline of a returned map is the latitude
    and longitude of a row of [stops] whose [stop_id] some [stop_times]
    row visits. *)
Theorem drawn_points_are_stop_coordinates `{!SeriesMean} gtfs_files stops_df
    stop_times_df
    out map_obj line point :
  stops_txt gtfs_files = Some stops_df →
  stop_times_txt gtfs_files = Some stop_times_df →
  plot_routes_on_map gtfs_files = (out, inr (Some map_obj)) →
  line ∈ polylines map_obj →
  point ∈ line →
  ∃ s, s ∈ stops_rows stops_df
       ∧ stop_lat s = Some point.1
       ∧ stop_lon s = Some point.2
       ∧ s_stop_id s ∈ st_stop_id <$> stop_times_df.
Proof.
  intros Hstops Hst Hrun Hline Hpoint.
  destruct (plot_routes_on_map_cases gtfs_files)
    as [[_ [l Hplot]]
       |(stops_df' & trips_df & stop_times_df' & Hstops' & _ & Hst' & _
         & [[_ Hplot]|(center & _ & Hplot)])];
    rewrite Hplot in Hrun; [done..|].
  rewrite Hstops in Hstops'. injection Hstops' as <-.
  rewrite Hst in Hst'. injection Hst' as <-.
  cbn zeta in Hrun. injection Hrun as <- <-. cbn [polylines] in Hline.
  apply list_elem_of_filter in Hline as [_ Hline].
  apply list_elem_of_fmap in Hline as ([t group] & -> & Hgroup).
  unfold groupby in Hgroup.
  apply list_elem_of_fmap in Hgroup as (k & [= -> ->] & _).
  cbn [snd] in Hpoint.
  apply elem_of_coordinates_of in Hpoint as (r & Hr & Hlat & Hlon).
  apply list_elem_of_filter in Hr as [_ Hr].
  unfold plot_trip_stop_times in Hr. rewrite sort_values_Permutation in Hr.
  apply elem_of_plot_joined in Hr
    as (st & Hin & _ & _ & [(Hnone & _)|(s & Hs & Hid & Hslat & Hslon)]);
    [congruence|].
  exists s. split; [done|]. split; [congruence|]. split; [congruence|].
  rewrite Hid. apply list_elem_of_fmap. by exists st.
Qed.

Lemma drawn_points_are_stop_coordinates_witness :
  ∃ s, s ∈ stops_rows two_stops
       ∧ stop_lat s = Some (10 # 1)%Q
       ∧ stop_lon s = Some (21 # 1)%Q
       ∧ s_stop_id s ∈ st_stop_id <$> frequent_stop_times.
Proof.
  apply (drawn_points_are_stop_coordinates frequent_files two_stops
           frequent_stop_times [] frequent_map
           [((10 # 1)%Q, (20 # 1)%Q); ((10 # 1)%Q, (21 # 1)%Q)]
           ((10 # 1)%Q, (21 # 1)%Q)).
  - reflexivity.
  - reflexivity.
  - reflexivity.
  - vm_compute. right. right. left.
  - right. left.
Defined.

(** X15. A trip none of whose stops has both coordinates in [stops]
    (unknown [stop_id]s included) is reported as skipped and does not
    keep the map from being returned. *)
Theorem trip_without_coordinates_skipped `{!SeriesMean} gtfs_files stops_df
    trips_df
    stop_times_df center t :
  stops_txt gtfs_files = Some stops_df →
  "stop_lat" ∈ stops_columns stops_df →
  "stop_lon" ∈ stops_columns stops_df →
  trips_txt gtfs_files = Some trips_df →
  stop_times_txt gtfs_files = Some stop_times_df →
  map_center stops_df = Some center →
  t ∈ st_trip_id <$> stop_times_df →
  (∀ r s, r ∈ stop_times_df → st_trip_id r = t →
          s ∈ stops_rows stops_df → s_stop_id s = st_stop_id r →
          stop_lat s = None ∨ stop_lon s = None) →
  ∃ out map_obj,
    plot_routes_on_map gtfs_files = (out, inr (Some map_obj))
    ∧ skip_line t ∈ out
    ∧ location map_obj = center.
Proof.
  intros Hstops Hlat Hlon Htrips Hst Hcenter Ht Hnone.
  destruct (plot_routes_on_map_cases gtfs_files)
    as [[Hnot _]
       |(stops_df' & trips_df' & stop_times_df' & Hstops' & Htrips' & Hst'
         & _ & [[Hcenter' _]|(center' & Hcenter' & Hplot)])].
  - destruct Hnot. exists stops_df. rewrite Htrips, Hst. by repeat split.
  - congruence.
  - rewrite Hstops in Hstops'. injection Hstops' as <-.
    rewrite Htrips in Htrips'. injection Htrips' as <-.
    rewrite Hst in Hst'. injection Hst' as <-.
    rewrite Hcenter in Hcenter'. injection Hcenter' as <-.
    cbn zeta in Hplot. eexists _, _. split; [exact Hplot|].
    split; [|done].
    set (df := plot_trip_stop_times stop_times_df stops_df trips_df).
    apply list_elem_of_fmap.
    exists (t, filter (λ r, p_trip_id r = t) df). split; [done|].
    apply list_elem_of_filter. split.
    + cbn [snd]. destruct (coordinates_of _) as [|point cs] eqn:Hc; [done|].
      exfalso.
      assert (point ∈ coordinates_of (filter (λ r, p_trip_id r = t) df))
        as Hpoint by (rewrite Hc; left).
      apply elem_of_coordinates_of in Hpoint as (r & Hr & Hrlat & Hrlon).
      apply list_elem_of_filter in Hr as [Hrt Hr].
      unfold df, plot_trip_stop_times in Hr.
      rewrite sort_values_Permutation in Hr.
      apply elem_of_plot_joined in Hr
        as (st & Hin & Htid & _
            & [(Hn & _)|(s & Hs & Hid & Hslat & Hslon)]); [congruence|].
      destruct (Hnone st s Hin) as [?|?]; congruence.
    + unfold groupby. apply list_elem_of_fmap. exists t. split; [done|].
      unfold df. rewrite plot_trip_keys_distinct, elem_of_elements.
      unfold distinct. by rewrite elem_of_list_to_set.
Qed.

Lemma trip_without_coordinates_skipped_witness :
  ∃ out map_obj,
    plot_routes_on_map stray_files = (out, inr (Some map_obj))
    ∧ skip_line "T9" ∈ out
    ∧ location map_obj = ((20 # 2)%Q, (41 # 2)%Q).
Proof.
  apply (trip_without_coordinates_skipped stray_files two_stops
           frequent_trips
           (frequent_stop_times ++ [stop_time_row "T9" 1 "S9"])
           ((20 # 2)%Q, (41 # 2)%Q) "T9").
  - reflexivity.
  - vm_compute. right. left.
  - vm_compute. right. right. left.
  - reflexivity.
  - reflexivity.
  - reflexivity.
  - vm_compute. do 4 right. left.
  - intros r s Hr Ht Hs Hid. exfalso. vm_compute in Hr, Hs.
    repeat (apply elem_of_cons in Hr as [->|Hr]; [try discriminate Ht|]);
      [|by apply elem_of_nil in Hr].
    repeat (apply elem_of_cons in Hs as [->|Hs]; [discriminate Hid|]).
    by apply elem_of_nil in Hs.
Defined.

(** ** More on [analyze_gtfs_feeds] *)

(** The loop body, by the outcome of the renderer on the loaded tables. *)
Lemma process_feed_cases `{!SeriesMean} fs directory :
  ∃ pre,
    prints_only pre
    ∧ process_feed fs directory
      = match (plot_routes_on_map (files_of (fs directory))).2 with
        | inr (Some map_obj) =>
            (pre ++ [Save (map_filename directory) map_obj;
                     Print ("Map saved as '" +:+ map_filename directory
                            +:+ "'.")],
             inr tt)
        | inr None => (pre, inr tt)
        | inl e => (pre, inl e)
        end.
Proof.
  unfold process_feed.
  destruct (load_gtfs_from_directory_spec fs directory)
    as (o & Ho & Hload & _).
  unfold mbind at 1 2, Run_bind at 1 2. rewrite Hload. cbn [print fst snd].
  assert (prints_only
            [Print ("Processing GTFS feed in directory " +:+ directory
                    +:+ "...")]) as Hfirst by (by repeat constructor).
  destruct (plot_routes_on_map_cases (files_of (fs directory)))
    as [[_ [line Hplot]]
       |(stops_df & trips_df & stop_times_df & Hstops & _ & _ & _
         & [[_ Hplot]|(center & _ & Hplot)])].
  - rewrite Hplot. cbn [snd]. case_decide.
    + eexists. split; [|reflexivity].
      apply prints_only_app; [done|].
      apply prints_only_app; [done|by repeat constructor].
    + eexists. split; [|reflexivity].
      apply prints_only_app; [done|].
      apply prints_only_app; [done|by repeat constructor].
  - rewrite decide_False
      by (unfold len_files; rewrite Hstops;
          destruct (trips_txt _), (stop_times_txt _), (routes_txt _);
          simpl; lia).
    rewrite Hplot. cbn [snd]. eexists. split; [|reflexivity].
    rewrite app_nil_r. by apply prints_only_app.
  - rewrite decide_False
      by (unfold len_files; rewrite Hstops;
          destruct (trips_txt _), (stop_times_txt _), (routes_txt _);
          simpl; lia).
    cbn zeta in Hplot. rewrite Hplot. unfold mbind, Run_bind.
    cbn [fst snd save print].
    match goal with
    | |- ∃ pre, _ ∧ (?a ++ ?b ++ ?c ++ _ ++ _, _) = _ =>
        exists (a ++ b ++ c)
    end.
    split; [|rewrite <-!app_assoc; reflexivity].
    apply prints_only_app; [done|]. apply prints_only_app; [done|].
    apply Forall_fmap, Forall_forall. by intros.
Qed.

(** X16. A run over two lists of directories one after the other is the
    run over the first followed by the run over the second, unless the
    first raises: an exception that escapes the loop body ends the run,
    and no later directory is processed. *)
Theorem analyze_gtfs_feeds_app `{!SeriesMean} fs l1 l2 :
  analyze_gtfs_feeds fs (l1 ++ l2)
  = match (analyze_gtfs_feeds fs l1).2 with
    | inr _ =>
        ((analyze_gtfs_feeds fs l1).1 ++ (analyze_gtfs_feeds fs l2).1,
         (analyze_gtfs_feeds fs l2).2)
    | inl e => ((analyze_gtfs_feeds fs l1).1, inl e)
    end.
Proof.
  induction l1 as [|d l1 IH].
  - simpl. by destruct (analyze_gtfs_feeds fs l2).
  - cbn [app analyze_gtfs_feeds]. unfold mbind, Run_bind.
    destruct (process_feed fs d) as [out [e|[]]]; cbn [fst snd]; [done|].
    rewrite IH. destruct (analyze_gtfs_feeds fs l1) as [out1 [e|[]]];
      cbn [fst snd]; [done|]. by rewrite app_assoc.
Qed.

(** X17. Every artifact a run saves is the map that the renderer returns
    for one of the listed directories, under the file name derived from
    that directory; and a run that ends without an exception has saved
    the map of every listed directory for which the renderer returns
    one. *)
Theorem saved_artifacts `{!SeriesMean} fs gtfs_directories :
  (∀ filename map_obj,
     Save filename map_obj ∈ (analyze_gtfs_feeds fs gtfs_directories).1 →
     ∃ directory,
       directory ∈ gtfs_directories
       ∧ filename = map_filename directory
       ∧ (plot_routes_on_map (files_of (fs directory))).2
         = inr (Some map_obj))
  ∧ ((analyze_gtfs_feeds fs gtfs_directories).2 = inr tt →
     ∀ directory map_obj,
       directory ∈ gtfs_directories →
       (plot_routes_on_map (files_of (fs directory))).2
       = inr (Some map_obj) →
       Save (map_filename directory) map_obj
       ∈ (analyze_gtfs_feeds fs gtfs_directories).1).
Proof.
  induction gtfs_directories as [|d rest [IH1 IH2]].
  { split; [by intros ? ? ?%elem_of_nil|by intros _ ? ? ?%elem_of_nil]. }
  cbn [analyze_gtfs_feeds]. unfold mbind, Run_bind.
  destruct (process_feed_cases fs d) as (pre & Hpre & ->).
  destruct (plot_routes_on_map (files_of (fs d))).2 as [e|[m|]] eqn:Hplot;
    cbn [fst snd].
  - split; [|done]. intros filename map_obj Hin.
    by apply prints_only_no_save in Hin.
  - split.
    + intros filename map_obj Hin.
      rewrite !elem_of_app, !elem_of_cons in Hin.
      destruct Hin as [[Hin|[[= -> ->]|[?|?%elem_of_nil]]]|Hin]; try done.
      * by apply prints_only_no_save in Hin.
      * exists d. split; [left|done].
      * destruct (IH1 _ _ Hin) as (d' & Hd' & Hname & Hmap).
        exists d'. split; [by right|done].
    + intros Hok d' map_obj [->|Hd']%elem_of_cons Hmap.
      * rewrite Hplot in Hmap. injection Hmap as <-.
        apply elem_of_app. left. apply elem_of_app. right. left.
      * apply elem_of_app. right. by apply IH2.
  - split.
    + intros filename map_obj [Hin|Hin]%elem_of_app.
      * by apply prints_only_no_save in Hin.
      * destruct (IH1 _ _ Hin) as (d' & Hd' & Hname & Hmap).
        exists d'. split; [by right|done].
    + intros Hok d' map_obj [->|Hd']%elem_of_cons Hmap.
      * congruence.
      * apply elem_of_app. right. by apply IH2.
Qed.

Lemma saved_artifacts_witness :
  Save (map_filename "feeds/B") frequent_map
  ∈ (analyze_gtfs_feeds sample_fs ["feeds/A"; "feeds/B"]).1.
Proof.
  apply (proj2 (saved_artifacts sample_fs ["feeds/A"; "feeds/B"])).
  - reflexivity.
  - right. left.
  - reflexivity.
Defined.

(** X18. A feed whose [stops.txt] has the coordinate columns and no
    coordinate value makes the renderer raise; the loop body has no
    handler, so the run ends there with the exception. *)
Theorem feed_without_coordinates_ends_run `{!SeriesMean} fs directory rest
    stops_df :
  stops_file (fs directory) = Parsed stops_df →
  "stop_lat" ∈ stops_columns stops_df →
  "stop_lon" ∈ stops_columns stops_df →
  loaded (trips_file (fs directory)) = true →
  loaded (stop_times_file (fs directory)) = true →
  map_center stops_df = None →
  ∃ out,
    prints_only out
    ∧ analyze_gtfs_feeds fs (directory :: rest)
      = (out, inl (ValueError "Location values cannot contain NaNs.")).
Proof.
  intros Hstops Hlat Hlon Htrips Hst Hcenter.
  destruct (process_feed_cases fs directory) as (pre & Hpre & Hbody).
  destruct (plot_routes_on_map_cases (files_of (fs directory)))
    as [[Hnot _]
       |(stops_df' & trips_df & stop_times_df & Hstops' & _ & _ & _
         & [[_ Hplot]|(center & Hcenter' & _)])].
  - destruct Hnot. exists stops_df. unfold files_of. simpl.
    rewrite Hstops. split; [done|]. do 2 (split; [done|]).
    destruct (trips_file _), (stop_times_file _); done.
  - rewrite Hplot in Hbody. cbn [snd] in Hbody.
    exists pre. split; [done|]. cbn [analyze_gtfs_feeds].
    by rewrite (bind_raised _ _ _ _ Hbody).
  - unfold files_of in Hstops'. simpl in Hstops'. rewrite Hstops in Hstops'.
    simpl in Hstops'. congruence.
Qed.

Lemma feed_without_coordinates_ends_run_witness :
  ∃ out,
    prints_only out
    ∧ analyze_gtfs_feeds hollow_fs ["feeds/E"; "feeds/B"]
      = (out, inl (ValueError "Location values cannot contain NaNs.")).
Proof.
  apply (feed_without_coordinates_ends_run hollow_fs "feeds/E" ["feeds/B"]
           {| stops_columns := ["stop_id"; "stop_lat"; "stop_lon"];
              stops_rows :=
                [ {| s_stop_id := "S1"; stop_lat := None;
                     stop_lon := None |} ] |}).
  - reflexivity.
  - right. left.
  - right. right. left.
  - reflexivity.
  - reflexivity.
  - reflexivity.
Defined.

Lemma load_gtfs_from_directory_outcome_witness :
  ∃ out,
    load_gtfs_from_directory sample_fs "feeds/A"
    = (out, inr (files_of (sample_fs "feeds/A")))
    ∧ prints_only out
    ∧ (Print "Warning: Missing some GTFS files in feeds/A" ∈ out
       ↔ len_files (files_of (sample_fs "feeds/A")) ≠ 4)
    ∧ (out = [] ↔ len_files (files_of (sample_fs "feeds/A")) = 4).
Proof. apply (load_gtfs_from_directory_outcome sample_fs "feeds/A"). Defined.

Lemma plot_routes_on_map_outcome_witness :
  ∃ stops_df,
    stops_txt frequent_files = Some stops_df
    ∧ renderable frequent_files
    ∧ map_center stops_df = Some (location frequent_map)
    ∧ zoom_start frequent_map = 12%Z
    ∧ Forall (λ line, line ≠ []) (polylines frequent_map).
Proof.
  apply (proj2 (proj2 (plot_routes_on_map_outcome frequent_files))
           frequent_map).
  reflexivity.
Defined.

Lemma analyze_gtfs_feeds_app_witness :
  analyze_gtfs_feeds sample_fs (["feeds/A"] ++ ["feeds/B"])
  = match (analyze_gtfs_feeds sample_fs ["feeds/A"]).2 with
    | inr _ =>
        ((analyze_gtfs_feeds sample_fs ["feeds/A"]).1
         ++ (analyze_gtfs_feeds sample_fs ["feeds/B"]).1,
         (analyze_gtfs_feeds sample_fs ["feeds/B"]).2)
    | inl e => ((analyze_gtfs_feeds sample_fs ["feeds/A"]).1, inl e)
    end.
Proof.
  apply (analyze_gtfs_feeds_app sample_fs ["feeds/A"] ["feeds/B"]).
Defined.

(** ** The [route_id] column of the joined table *)

(** X19. A row of the sorted joined table of [extract_segments] has a
    null [route_id] when its [trip_id] is not in [trips]; otherwise it
    carries the [route_id] cell of a [trips] row of that [trip_id], which
    is null when that cell is empty. *)
Theorem joined_route_id stop_times trips r :
  r ∈ trip_stop_times stop_times trips →
  ((ts_trip_id r ∉ trip_id <$> trips) ∧ ts_route_id r = None)
  ∨ (∃ trip, trip ∈ trips ∧ trip_id trip = ts_trip_id r
             ∧ ts_route_id r = route_id trip).
Proof.
  unfold trip_stop_times. rewrite sort_values_Permutation.
  unfold joined_trip_stops. intros Hr.
  apply elem_of_merge_left in Hr
    as (st & _ & [[Hnone ->]|(trip & Htrip & Hid & ->)]); simpl.
  - by left.
  - right. by exists trip.
Qed.

Lemma joined_route_id_witness :
  (("T1" ∉ trip_id <$> shared_trips) ∧ Some "R1" = None)
  ∨ (∃ trip, trip ∈ shared_trips ∧ trip_id trip = "T1"
             ∧ Some "R1" = route_id trip).
Proof.
  apply (joined_route_id shared_stop_times shared_trips
           {| ts_trip_id := "T1"; ts_stop_sequence := 1;
              ts_stop_id := "A"; ts_route_id := Some "R1" |}).
  vm_compute. left.
Defined.

(** ** Segment identity *)

Lemma ordered_tuple_of_segment stop_times t tuple :
  ordered_tuple_of stop_times t tuple
  ↔ tuple = stop_times_segment stop_times t.
Proof.
  unfold ordered_tuple_of, stop_times_segment. split.
  - intros (rows & _ & Hsorted & Hties & ->). f_equal.
    apply (stable_sort_unique (by_stop_sequence st_stop_sequence));
      [apply _..|done|].
    intros a.
    rewrite !(list_filter_iff (tied (by_stop_sequence st_stop_sequence) a)
                (λ r, st_stop_sequence r = st_stop_sequence a))
      by apply tied_by_stop_sequence.
    apply Hties.
  - intros ->.
    exists (stable_sort (by_stop_sequence st_stop_sequence)
              (filter (λ r, st_trip_id r = t) stop_times)).
    split; [apply stable_sort_Permutation|].
    split; [apply (Sorted_stable_sort (by_stop_sequence st_stop_sequence))|].
    split; [|done]. intros q.
    destruct (filter (λ r, st_stop_sequence r = q)
                (filter (λ r, st_trip_id r = t) stop_times))
      as [|a l] eqn:Hf.
    + eapply filter_nil_Permutation; [apply stable_sort_Permutation|done].
    + rewrite <-Hf.
      assert (st_stop_sequence a = q) as <-.
      { assert (a ∈ filter (λ r, st_stop_sequence r = q)
                      (filter (λ r, st_trip_id r = t) stop_times)) as Hin
          by (rewrite Hf; left).
        by apply list_elem_of_filter in Hin as [? _]. }
      rewrite !(list_filter_iff
                  (λ r, st_stop_sequence r = st_stop_sequence a)
                  (tied (by_stop_sequence st_stop_sequence) a))
        by (intros x; by rewrite tied_by_stop_sequence).
      apply stable_sort_stable; apply _.
Qed.

(** With unique [trip_id]s in [trips] the group of a trip holds its
    [stop_times] rows, once each. *)
Lemma trip_segment_unique_trips stop_times trips t :
  NoDup (trip_id <$> trips) →
  trip_segment (trip_stop_times stop_times trips) t
  = stop_times_segment stop_times t.
Proof.
  intros Hnd. unfold trip_stop_times.
  rewrite <-trip_segment_drop_route.
  rewrite (sort_values_fmap drop_route ts_trip_id ts_stop_sequence
             ts_trip_id ts_stop_sequence) by done.
  rewrite (joined_trip_stops_unique _ _ Hnd).
  change (λ st, {| ts_trip_id := st_trip_id st;
                   ts_stop_sequence := st_stop_sequence st;
                   ts_stop_id := st_stop_id st;
                   ts_route_id := None |}) with unrouted.
  rewrite <-(sort_values_fmap unrouted st_trip_id st_stop_sequence)
    by done.
  unfold trip_segment, stop_times_segment.
  rewrite filter_fmap, <-list_fmap_compose. simpl.
  by rewrite sort_values_trip.
Qed.

Lemma shared_tuples :
  ordered_tuple_of shared_stop_times "T1" ["A"; "B"]
  ∧ ordered_tuple_of shared_stop_times "T2" ["A"; "B"].
Proof. split; by apply ordered_tuple_of_segment. Qed.

(** C1, as the specification states it, fails. Trips T1 and T2 visit A
    then B; when [trips] lists T1 twice the join repeats its rows, and
    the two trips get different keys with a count of 1 each. And two
    trips without [stop_times] rows have the same, empty tuple and no key
    at all. *)
Lemma repeated_trip_splits_segment :
  ordered_tuple_of shared_stop_times "T1" ["A"; "B"]
  ∧ ordered_tuple_of shared_stop_times "T2" ["A"; "B"]
  ∧ extract_segments (table_set repeated_trips shared_stop_times two_routes)
    = ([], inr {[ ["A"; "A"; "B"; "B"] := 1; ["A"; "B"] := 1 ]})
  ∧ trip_segment (trip_stop_times shared_stop_times repeated_trips) "T1"
    ≠ trip_segment (trip_stop_times shared_stop_times repeated_trips) "T2"
  ∧ (¬ ∃ segments n,
         extract_segments
           (table_set repeated_trips shared_stop_times two_routes)
         = ([], inr segments)
         ∧ segments !! ["A"; "B"] = Some n ∧ 2 ≤ n)
  ∧ ordered_tuple_of [] "T1" []
  ∧ ordered_tuple_of [] "T2" []
  ∧ extract_segments (table_set shared_trips [] two_routes) = ([], inr ∅).
Proof.
  destruct shared_tuples as [H1 H2].
  split; [done|]. split; [done|]. split; [reflexivity|].
  split; [by vm_compute|]. split.
  - intros (segments & n & Hrun & Hkey & Hn).
    change (extract_segments
              (table_set repeated_trips shared_stop_times two_routes))
      with (([], inr {[ ["A"; "A"; "B"; "B"] := 1; ["A"; "B"] := 1 ]})
            : Run (gmap (list string) nat)) in Hrun.
    injection Hrun as <-. vm_compute in Hkey. injection Hkey as <-. lia.
  - split; [by apply ordered_tuple_of_segment|].
    split; [by apply ordered_tuple_of_segment|reflexivity].
Qed.

(** C1, amended. When every [trip_id] is listed once in [trips], two
    trips with [stop_times] rows whose ordered stop_id tuples are
    identical are mapped by [extract_segments] to that tuple as their one
    segment key and share its count, which is at least 2; the [route_id]s
    of [trips] play no part: any other [route_id] column gives the same
    counts. *)
Theorem same_stops_same_segment gtfs_files trips stop_times routes t1 t2
    tuple :
  trips_txt gtfs_files = Some trips →
  stop_times_txt gtfs_files = Some stop_times →
  routes_txt gtfs_files = Some routes →
  NoDup (trip_id <$> trips) →
  t1 ∈ st_trip_id <$> stop_times →
  t2 ∈ st_trip_id <$> stop_times →
  t1 ≠ t2 →
  ordered_tuple_of stop_times t1 tuple →
  ordered_tuple_of stop_times t2 tuple →
  ∃ segments n,
    extract_segments gtfs_files = ([], inr segments)
    ∧ trip_segment (trip_stop_times stop_times trips) t1 = tuple
    ∧ trip_segment (trip_stop_times stop_times trips) t2 = tuple
    ∧ segments !! tuple = Some n
    ∧ 2 ≤ n
    ∧ ∀ trips', trip_id <$> trips' = trip_id <$> trips →
        extract_segments (with_trips gtfs_files trips') = ([], inr segments).
Proof.
  intros Ht Hs Hr Hnd Ht1 Ht2 Hne Htuple1 Htuple2.
  apply ordered_tuple_of_segment in Htuple1, Htuple2.
  set (df := trip_stop_times stop_times trips).
  assert (trip_segment df t1 = tuple) as Hseg1
    by (unfold df; by rewrite trip_segment_unique_trips).
  assert (trip_segment df t2 = tuple) as Hseg2
    by (unfold df; by rewrite trip_segment_unique_trips).
  apply elem_of_trip_stop_times_keys with (trips := trips) in Ht1, Ht2.
  eexists _, _.
  split; [by apply (extract_segments_loaded _ trips stop_times routes)|].
  do 2 (split; [done|]). fold df. rewrite lookup_count_segments.
  rewrite decide_True by (apply list_elem_of_fmap; eauto).
  split; [done|]. split.
  - by apply (length_filter_two _ _ t1 t2).
  - intros trips' Hids.
    rewrite (extract_segments_loaded _ trips' stop_times routes) by done.
    by rewrite (count_segments_routes _ _ _ Hids).
Qed.

Lemma same_stops_same_segment_witness :
  ∃ segments n,
    extract_segments (table_set shared_trips shared_stop_times two_routes)
    = ([], inr segments)
    ∧ trip_segment (trip_stop_times shared_stop_times shared_trips) "T1"
      = ["A"; "B"]
    ∧ trip_segment (trip_stop_times shared_stop_times shared_trips) "T2"
      = ["A"; "B"]
    ∧ segments !! ["A"; "B"] = Some n
    ∧ 2 ≤ n
    ∧ ∀ trips', trip_id <$> trips' = trip_id <$> shared_trips →
        extract_segments
          (with_trips (table_set shared_trips shared_stop_times two_routes)
             trips')
        = ([], inr segments).
Proof.
  apply (same_stops_same_segment
           (table_set shared_trips shared_stop_times two_routes)
           shared_trips shared_stop_times two_routes "T1" "T2").
  - reflexivity.
  - reflexivity.
  - reflexivity.
  - vm_compute. apply NoDup_cons. split.
    + intros Hin. apply elem_of_cons in Hin as [Hin|Hin]; [discriminate Hin|].
      by apply elem_of_nil in Hin.
    + apply NoDup_singleton.
  - vm_compute. left.
  - vm_compute. right. left.
  - discriminate.
  - exact (proj1 shared_tuples).
  - exact (proj2 shared_tuples).
Defined.

(** ** Failing feeds *)



